(** * Acclaim skeleton / motion capture: forward kinematics and motion parsing

    A shallow embedding of the kinematic core of
    [assignment_1/3D/motion_capture_visualization.ipynb]:

    - the [Joint] class ([__init__], [set_motion], [to_dict]),
    - the parsers [parse_asf] and [parse_amc],
    - the frame drivers [update_3d_scene], [create_3d_animation] and
      [create_animation],
    - [visualize_skeleton] and [extract_time_series_data].

    Python exceptions are values of [error]; a function that may raise
    returns a [result].  The numeric library (numpy, transforms3d, the
    builtin [float]) is an interface, [Numerics]: every statement below
    holds for any implementation of it, in particular for IEEE doubles.
    The depth to which [copy.deepcopy] recurses is an interface of its
    own, [Copier]. *)

From Stdlib Require Import ZArith Ascii String List Lia.
From stdpp Require Import base option list strings gmap fin_maps.

Local Open Scope string_scope.
Local Open Scope list_scope.
Local Open Scope nat_scope.

(** ** Exceptions *)

Inductive error : Type :=
| KeyError          (* dict lookup of a missing key *)
| IndexError        (* list index out of range *)
| ValueError        (* reshape of a wrong size, float() of a bad literal, list.index,
                       math.sin of an infinite angle, an axis limit that is not finite *)
| TypeError         (* wrong number of positional arguments *)
| AttributeError    (* attribute access on None *)
| LinAlgError       (* inverse of a singular matrix *)
| RecursionError    (* interpreter recursion depth exhausted *)
| DanglingReference (* a joint name with no object; never arises from [parse_asf] *).

Inductive result (A : Type) : Type :=
| Ok (a : A)
| Err (e : error).
Arguments Ok {A} a.
Arguments Err {A} e.

#[global] Instance result_ret : MRet result := @Ok.
#[global] Instance result_bind : MBind result :=
  λ A B f m, match m with Ok a => f a | Err e => Err e end.

Definition lookup_or {A} (e : error) (o : option A) : result A :=
  match o with Some a => Ok a | None => Err e end.

(** A [for] loop threading an accumulator through a body that may raise. *)
Fixpoint for_each {A B} (body : B → A → result B) (acc : B) (l : list A) : result B :=
  match l with
  | [] => Ok acc
  | x :: rest =>
      match body acc x with
      | Ok acc' => for_each body acc' rest
      | Err e => Err e
      end
  end.

(** ** The numeric interface *)

Class Numerics : Type := {
  float64 : Type;                                    (* a Python / numpy float *)
  mat : Type;                                        (* a 3x3 ndarray *)
  zero : float64;                                    (* 0.0, the entries of np.zeros *)
  float_eqb : float64 → float64 → bool;              (* == on floats *)
  add : float64 → float64 → float64;
  mul : float64 → float64 → float64;
  deg2rad : float64 → float64;                       (* np.deg2rad *)
  isinf : float64 → bool;                            (* math.isinf *)
  isfinite : float64 → bool;                         (* np.isfinite *)
  euler2mat : float64 → float64 → float64 → mat;     (* what transforms3d.euler.euler2mat
                                                        returns, when it returns *)
  dot : mat → mat → mat;                             (* ndarray.dot, 3x3 by 3x3 *)
  dotv : mat → float64 * float64 * float64 → float64 * float64 * float64;
                                                     (* ndarray.dot, 3x3 by 3x1 *)
  inv : mat → option mat;                            (* np.linalg.inv *)
  float_of_string : string → option float64;         (* float(token) *)
  float_eqb_zero : float_eqb zero zero = true;       (* 0.0 == 0.0 *)
  deg2rad_zero : isinf (deg2rad zero) = false        (* np.deg2rad(0.0) is 0.0 *)
}.

Section Model.
Context {num : Numerics}.

(** A 3x1 column array. *)
Definition vec : Type := float64 * float64 * float64.

Definition vadd (a b : vec) : vec :=
  let '(a0, a1, a2) := a in
  let '(b0, b1, b2) := b in
  (add a0 b0, add a1 b1, add a2 b2).

Definition scale (k : float64) (a : vec) : vec :=
  let '(a0, a1, a2) := a in (mul k a0, mul k a1, mul k a2).

(** [np.reshape(l, [3, 1])] *)
Definition as_vec3 (l : list float64) : result vec :=
  match l with
  | [a; b; c] => Ok (a, b, c)
  | _ => Err ValueError
  end.

(** The call [euler2mat(ai, aj, ak)]: it takes [math.sin] and [math.cos]
    of the three angles, which raise [ValueError] on an infinite one. *)
Definition euler2mat_call (ai aj ak : float64) : result mat :=
  if isinf ai || isinf aj || isinf ak then Err ValueError
  else Ok (euler2mat ai aj ak).

(** [euler2mat] applied to the unpacked entries of [np.deg2rad(angles)].
    The function has a fourth parameter, [axes]: a fourth entry is taken
    for it and looked up in the table of axes, which raises [KeyError];
    any other number of entries than three or four does not fit the
    parameters. *)
Definition euler_of_degrees (angles : list float64) : result mat :=
  match angles with
  | [a; b; c] => euler2mat_call (deg2rad a) (deg2rad b) (deg2rad c)
  | [_; _; _; _] => Err KeyError
  | _ => Err TypeError
  end.

(** ** The [Joint] class *)

(** One row of [self.limits]. *)
Definition lim : Type := float64 * float64.

(** The fields written by [__init__] and [parse_hierarchy]; [parent] and
    [children] are object references, here the names of the joints. *)
Record Joint : Type := {
  name : string;
  direction : vec;
  length : float64;
  C : mat;
  Cinv : mat;
  limits : lim * lim * lim;      (* np.zeros([3, 2]): rows x, y, z *)
  parent : option string;
  children : list string
}.

(** The fields written by [set_motion]; both are [None] in a joint that
    was never posed, which is a joint without an entry in the pose map. *)
Record Pose : Type := {
  coordinate : vec;
  matrix : mat
}.

(** The heap: joint objects by name, as in the dict built by [parse_asf],
    and the mutable part of each object. *)
Local Abbreviation skeleton := (gmap string Joint).
Local Abbreviation poses := (gmap string Pose).
(** A motion frame: [{joint name: [values]}]. *)
Local Abbreviation frame := (gmap string (list float64)).

(** [self.limits[axis] = lm] with numpy broadcasting of a one-element row. *)
Definition as_row (lm : list float64) : result lim :=
  match lm with
  | [a] => Ok (a, a)
  | [a; b] => Ok (a, b)
  | _ => Err ValueError
  end.

Fixpoint fill_limits (pairs : list (list float64 * string)) (ls : lim * lim * lim)
  : result (lim * lim * lim) :=
  match pairs with
  | [] => Ok ls
  | (lm, nm) :: rest =>
      row ← as_row lm;
      let '(l0, l1, l2) := ls in
      fill_limits rest
        (if decide (nm = "rx") then (row, l1, l2)
         else if decide (nm = "ry") then (l0, row, l2)
         else (l0, l1, row))
  end.

Definition Joint_init (name : string) (direction : list float64) (length : float64)
    (axis : list float64) (dof : list string) (limits : list (list float64))
  : result Joint :=
  d ← as_vec3 direction;
  c ← euler_of_degrees axis;
  ci ← lookup_or LinAlgError (inv c);
  ls ← fill_limits (zip limits dof) ((zero, zero), (zero, zero), (zero, zero));
  Ok {| name := name; direction := d; length := length; C := c; Cinv := ci;
        limits := ls; parent := None; children := [] |}.

(** [np.array_equal(lm, np.zeros(2))] *)
Definition is_zero_row (lm : lim) : bool :=
  float_eqb lm.1 zero && float_eqb lm.2 zero.

(** One iteration of the loop over [enumerate(self.limits)]:
    the value for this axis and the next [idx]. *)
Definition take_channel (J : Joint) (motion : frame) (lm : lim) (idx : nat)
  : result (float64 * nat) :=
  if is_zero_row lm then Ok (zero, idx)
  else
    vs ← lookup_or KeyError (motion !! name J);
    v ← lookup_or IndexError (vs !! idx);
    Ok (v, S idx).

(** The array [rotation] (in degrees) of a non-root joint. *)
Definition local_rotation (J : Joint) (motion : frame) : result vec :=
  let '(lx, ly, lz) := limits J in
  '(rx, idx) ← take_channel J motion lx 0;
  '(ry, idx) ← take_channel J motion ly idx;
  '(rz, idx) ← take_channel J motion lz idx;
  Ok (rx, ry, rz).

(** The branch [self.name == 'root']. *)
Definition root_pose (J : Joint) (motion : frame) : result Pose :=
  vs ← lookup_or KeyError (motion !! "root");
  coord ← as_vec3 (take 3 vs);
  e ← euler_of_degrees (drop 3 vs);
  Ok {| coordinate := coord; matrix := dot (dot (C J) e) (Cinv J) |}.

(** The [else] branch. *)
Definition joint_pose (ps : poses) (J : Joint) (motion : frame) : result Pose :=
  '(rx, ry, rz) ← local_rotation J motion;
  p ← lookup_or AttributeError (parent J);
  P ← lookup_or AttributeError (ps !! p);
  e ← euler2mat_call (deg2rad rx) (deg2rad ry) (deg2rad rz);
  let m := dot (dot (dot (matrix P) (C J)) e) (Cinv J) in
  Ok {| coordinate := vadd (coordinate P) (scale (length J) (dotv m (direction J)));
        matrix := m |}.

(** [Joint.set_motion]; [fuel] is the recursion depth the interpreter
    still allows. *)
Fixpoint set_motion (fuel : nat) (sk : skeleton) (motion : frame) (self : string)
    (ps : poses) : result poses :=
  match fuel with
  | O => Err RecursionError
  | S fuel' =>
      J ← lookup_or DanglingReference (sk !! self);
      pose ← (if decide (name J = "root") then root_pose J motion
              else joint_pose ps J motion);
      for_each (λ ps' child, set_motion fuel' sk motion child ps')
               (<[self := pose]> ps) (children J)
  end.

(** The frames of a sequence applied one after the other to the same joint
    objects, as in the loop [for f in frames: joints['root'].set_motion(motions[f])]
    of [extract_time_series_data]. *)
Definition apply_frames (fuel : nat) (sk : skeleton) (sequence : list frame)
    (ps : poses) : result poses :=
  for_each (λ ps' motion, set_motion fuel sk motion "root" ps') ps sequence.

(** [dict.update] on insertion-ordered key lists. *)
Definition dict_update (ret d : list string) : list string :=
  ret ++ filter (λ k, k ∉ ret) d.

(** [Joint.to_dict], as the ordered list of its keys; the object under a
    key is the joint of that name. *)
Fixpoint to_dict (fuel : nat) (sk : skeleton) (self : string) : result (list string) :=
  match fuel with
  | O => Err RecursionError
  | S fuel' =>
      J ← lookup_or DanglingReference (sk !! self);
      for_each (λ ret child, d ← to_dict fuel' sk child; Ok (dict_update ret d))
               [name J] (children J)
  end.

(** ** Frame drivers *)

(** What one call of [update_3d_scene] hands to the renderer: the
    scatter row [z, x, y] of every joint of [to_dict], in dict order. *)
Definition scene : Type := list (string * vec).

Definition scatter_row (ps : poses) (k : string) : result (string * vec) :=
  P ← lookup_or TypeError (ps !! k);
  let '(x, y, z) := coordinate P in
  Ok (k, (z, x, y)).

(** The two end points, child first, of the segment drawn for a joint that
    has a parent; both in the order z, x, y. *)
Definition segment (sk : skeleton) (ps : poses) (k : string)
  : result (option (vec * vec)) :=
  J ← lookup_or DanglingReference (sk !! k);
  match parent J with
  | None => Ok None
  | Some p =>
      Pj ← lookup_or TypeError (ps !! k);
      Pp ← lookup_or TypeError (ps !! p);
      let '(x, y, z) := coordinate Pj in
      let '(px, py, pz) := coordinate Pp in
      Ok (Some ((z, x, y), (pz, px, py)))
  end.

(** The loop of [update_3d_scene] over [lines]: a joint with a parent takes
    the next line object while one is left. *)
Definition update_lines (n_lines : nat) (sk : skeleton) (ps : poses)
    (joint_dict : list string) : result (list (vec * vec)) :=
  for_each (λ set k,
      J ← lookup_or DanglingReference (sk !! k);
      match parent J with
      | None => Ok set
      | Some _ =>
          if decide (List.length set < n_lines) then
            s ← segment sk ps k;
            Ok (set ++ option_list s)
          else Ok set
      end) [] joint_dict.

(** The line objects made by [create_3d_animation] and [init_3d_plot],
    the two callers of [update_3d_scene]. *)
Definition line_count : nat := 20.

(** The three values of a scatter row are finite. *)
Definition finite_row (row : string * vec) : bool :=
  let '(_, (z, x, y)) := row in isfinite z && isfinite x && isfinite y.

(** [ax.set_xlim], [ax.set_ylim], [ax.set_zlim] on the minimum and the
    maximum of a column of [coords], moved by the padding: matplotlib
    raises [ValueError] for a limit that is NaN or infinite, which it is
    when a value of the column is. *)
Definition set_limits (coords : scene) : result unit :=
  if forallb finite_row coords then Ok tt else Err ValueError.

(** [update_3d_scene]: the frame is applied, the scatter rows are read,
    the line objects are set and the limits of the axes are moved.  What
    it hands to the renderer is kept as the scatter rows. *)
Definition update_3d_scene (fuel : nat) (sk : skeleton) (motions : list frame)
    (frame_idx : nat) (ps : poses) : result (poses * scene) :=
  _ ← lookup_or KeyError (sk !! "root");
  motion ← lookup_or IndexError (motions !! frame_idx);
  ps' ← set_motion fuel sk motion "root" ps;
  joint_dict ← to_dict fuel sk "root";
  coords ← mapM (scatter_row ps') joint_dict;
  _ ← update_lines line_count sk ps' joint_dict;
  _ ← set_limits coords;
  Ok (ps', coords).

(** [FuncAnimation(fig, update, frames=n)]: the frames it shows are those
    of [update(i)] for [i] in [range(n)], each call working on the joint
    objects as the previous call left them. *)
Definition FuncAnimation (update : nat → poses → result (poses * scene)) (n : nat)
    (ps : poses) : result (poses * list scene) :=
  for_each (λ (acc : poses * list scene) i,
              '(ps'', sc) ← update i acc.1; Ok (ps'', acc.2 ++ [sc]))
           (ps, []) (seq 0 n).

(** [end_frame] after the guard [if end_frame is None or end_frame > len(motions)]. *)
Definition clamp_end (motions : list frame) (end_frame : option nat) : nat :=
  match end_frame with
  | None => List.length motions
  | Some e => if decide (List.length motions < e) then List.length motions else e
  end.

(** [range(start, stop)] *)
Definition range (start stop : nat) : list nat := seq start (stop - start).

Definition create_3d_animation (fuel : nat) (sk : skeleton) (motions : list frame)
    (start_frame : nat) (end_frame : option nat) (ps : poses)
  : result (poses * list scene) :=
  let end_frame := clamp_end motions end_frame in
  let frames_to_show := range start_frame end_frame in
  let update i := update_3d_scene fuel sk motions i in
  FuncAnimation update (List.length frames_to_show) ps.

(** The dashboard's [create_animation]; [frames] is the list
    [list(range(start_frame, end_frame))] built by [create_mocap_dashboard]. *)
Definition create_animation (fuel : nat) (sk : skeleton) (motions : list frame)
    (frames : list nat) (ps : poses) : result (poses * list scene) :=
  let update i ps' :=
    f ← lookup_or IndexError (frames !! i);
    update_3d_scene fuel sk motions f ps' in
  FuncAnimation update (List.length frames) ps.

Definition dashboard_frames (motions : list frame) (start_frame : nat)
    (end_frame : option nat) : list nat :=
  range start_frame (clamp_end motions end_frame).

(** ** The motion parser *)

(** [str.isspace] on ASCII. *)
Definition is_space (c : ascii) : bool :=
  let n := nat_of_ascii c in
  (((9 <=? n) && (n <=? 13)) || ((28 <=? n) && (n <=? 32)))%nat.

(** [line.strip().split()]: the maximal runs of non-blank characters. *)
Fixpoint split_from (tok : string) (s : string) : list string :=
  match s with
  | EmptyString => if decide (tok = "") then [] else [tok]
  | String c rest =>
      if is_space c then
        (if decide (tok = "") then split_from "" rest else tok :: split_from "" rest)
      else split_from (tok +:+ String c "") rest
  end.

Definition split (line : string) : list string := split_from "" line.

Definition is_digit (c : ascii) : bool :=
  let n := nat_of_ascii c in ((48 <=? n) && (n <=? 57))%nat.

(** [str.isnumeric] on ASCII: non-empty and all digits. *)
Definition isnumeric (s : string) : bool :=
  match s with
  | EmptyString => false
  | _ => forallb is_digit (list_ascii_of_string s)
  end.

(** [content[content.index(keyword) + 1:]] *)
Fixpoint read_section_after (content : list string) (keyword : string)
  : result (list string) :=
  match content with
  | [] => Err ValueError
  | l :: rest => if decide (l = keyword) then Ok rest else read_section_after rest keyword
  end.

(** [list(map(float, tokens))] *)
Definition floats (tokens : list string) : result (list float64) :=
  mapM (λ t, lookup_or ValueError (float_of_string t)) tokens.

(** One iteration of the [while] loop of [parse_amc] on [(frames, current_frame)]. *)
Definition amc_line (st : list frame * frame) (raw : string) : result (list frame * frame) :=
  let '(frames, current_frame) := st in
  match split raw with
  | [] => Ok (frames, current_frame)
  | key :: values =>
      if isnumeric key then
        if decide (size current_frame = 0) then Ok (frames, current_frame)
        else Ok (frames ++ [current_frame], ∅)
      else
        vs ← floats values;
        Ok (frames, <[key := vs]> current_frame)
  end.

(** [parse_amc] on the lines of the file. *)
Definition parse_amc (content : list string) : result (list frame) :=
  content ← read_section_after content ":DEGREES";
  '(frames, current_frame) ← for_each amc_line ([], ∅) content;
  Ok (if decide (size current_frame = 0) then frames else frames ++ [current_frame]).

End Model.

(** ** An exact implementation of the interface

    Integers, with angles that are multiples of ninety degrees: a
    "radian" is a count of quarter turns, so that sines and cosines are
    exact.  It runs the definitions on examples. *)

Module RightAngle.

Definition sinq (k : Z) : Z :=
  match (k mod 4)%Z with 1%Z => 1%Z | 3%Z => (-1)%Z | _ => 0%Z end.

Definition cosq (k : Z) : Z :=
  match (k mod 4)%Z with 0%Z => 1%Z | 2%Z => (-1)%Z | _ => 0%Z end.

Definition mat3 : Type := (Z * Z * Z) * (Z * Z * Z) * (Z * Z * Z).

(** transforms3d's [euler2mat] for its default axes ['sxyz']. *)
Definition euler (ai aj ak : Z) : mat3 :=
  let '(si, sj, sk) := (sinq ai, sinq aj, sinq ak) in
  let '(ci, cj, ck) := (cosq ai, cosq aj, cosq ak) in
  let '(cc, cs) := (ci * ck, ci * sk)%Z in
  let '(sc, ss) := (si * ck, si * sk)%Z in
  ((cj * ck, sj * sc - cs, sj * cc + ss),
   (cj * sk, sj * ss + cc, sj * cs - sc),
   (- sj, cj * si, cj * ci))%Z.

Definition mvec (m : mat3) (v : Z * Z * Z) : Z * Z * Z :=
  let '((a, b, c), (d, e, f), (g, h, i)) := m in
  let '(x, y, z) := v in
  (a * x + b * y + c * z, d * x + e * y + f * z, g * x + h * y + i * z)%Z.

Definition mmul (m n : mat3) : mat3 :=
  let '((a, b, c), (d, e, f), (g, h, i)) := n in
  let '(x0, y0, z0) := mvec m (a, d, g) in
  let '(x1, y1, z1) := mvec m (b, e, h) in
  let '(x2, y2, z2) := mvec m (c, f, i) in
  ((x0, x1, x2), (y0, y1, y2), (z0, z1, z2)).

Definition det (m : mat3) : Z :=
  let '((a, b, c), (d, e, f), (g, h, i)) := m in
  (a * (e * i - f * h) - b * (d * i - f * g) + c * (d * h - e * g))%Z.

(** The inverse of a matrix of determinant 1 or -1; the other integer
    matrices have no integer inverse. *)
Definition minv (m : mat3) : option mat3 :=
  let '((a, b, c), (d, e, f), (g, h, i)) := m in
  let k := det m in
  if decide (k = 1 ∨ k = -1)%Z then
    Some ((k * (e * i - f * h), k * (c * h - b * i), k * (b * f - c * e)),
          (k * (f * g - d * i), k * (a * i - c * g), k * (c * d - a * f)),
          (k * (d * h - e * g), k * (b * g - a * h), k * (a * e - b * d)))%Z
  else None.

Fixpoint digits_value (acc : Z) (s : string) : option Z :=
  match s with
  | EmptyString => Some acc
  | String c rest =>
      if is_digit c
      then digits_value (10 * acc + (Z.of_nat (nat_of_ascii c) - 48))%Z rest
      else None
  end.

(** [float] on integer literals. *)
Definition int_of_string (s : string) : option Z :=
  match s with
  | EmptyString => None
  | String "-"%char EmptyString => None
  | String "-"%char rest => Z.opp <$> digits_value 0 rest
  | _ => digits_value 0 s
  end.

Definition numerics : Numerics := {|
  float64 := Z;
  mat := mat3;
  zero := 0%Z;
  float_eqb := Z.eqb;
  add := Z.add;
  mul := Z.mul;
  deg2rad := λ d, (d / 90)%Z;
  isinf := λ _, false;
  isfinite := λ _, true;
  euler2mat := euler;
  dot := mmul;
  dotv := mvec;
  inv := minv;
  float_of_string := int_of_string;
  float_eqb_zero := eq_refl;
  deg2rad_zero := eq_refl
|}.

End RightAngle.

(** ** Linking joints, the shape of a skeleton, and the notions used in
    the statements *)

Section Hierarchy.
Context {num : Numerics}.

(** [parent.children.append(child)] *)
Definition add_child (c : string) (J : Joint) : Joint :=
  {| name := name J; direction := direction J; length := length J;
     C := C J; Cinv := Cinv J; limits := limits J;
     parent := parent J; children := children J ++ [c] |}.

(** [child.parent = parent] *)
Definition set_parent (p : string) (J : Joint) : Joint :=
  {| name := name J; direction := direction J; length := length J;
     C := C J; Cinv := Cinv J; limits := limits J;
     parent := Some p; children := children J |}.

(** The body of the inner loop of [parse_hierarchy], on the joints named
    [p] and [c]: [parent.children.append(child); child.parent = parent]. *)
Definition attach (sk : gmap string Joint) (p c : string) : result (gmap string Joint) :=
  P ← lookup_or KeyError (sk !! p);
  _ ← lookup_or KeyError (sk !! c);
  let sk1 := <[p := add_child c P]> sk in
  Cj ← lookup_or KeyError (sk1 !! c);
  Ok (<[c := set_parent p Cj]> sk1).

(** Every object is stored under its own name. *)
Definition named (sk : gmap string Joint) : Prop :=
  ∀ k J, sk !! k = Some J → name J = k.

(** Each entry of a children list is a joint whose [parent] is the owner of
    the list: no joint is listed by two parents. *)
Definition children_linked (sk : gmap string Joint) : Prop :=
  ∀ p P c, sk !! p = Some P → c ∈ children P →
    ∃ Cj, sk !! c = Some Cj ∧ parent Cj = Some p.

(** Each [parent] reference points to a joint that lists the child. *)
Definition parent_linked (sk : gmap string Joint) : Prop :=
  ∀ c Cj p, sk !! c = Some Cj → parent Cj = Some p →
    ∃ P, sk !! p = Some P ∧ c ∈ children P.

(** The links that [parse_hierarchy] leaves behind when every joint is
    attached at most once. *)
Definition linked (sk : gmap string Joint) : Prop :=
  named sk ∧ children_linked sk ∧ parent_linked sk.

Definition linkedb (sk : gmap string Joint) : bool :=
  forallb (λ '(k, J),
    bool_decide (name J = k)
    && forallb (λ c, bool_decide ((sk !! c) ≫= parent = Some k)) (children J)
    && match parent J with
       | None => true
       | Some p => match sk !! p with
                   | Some P => bool_decide (k ∈ children P)
                   | None => false
                   end
       end)
    (map_to_list sk).

(** [b] is reached from [a] through children lists. *)
Inductive reachable (sk : gmap string Joint) (a : string) : string → Prop :=
| reachable_self : reachable sk a a
| reachable_child b J c :
    reachable sk a b → sk !! b = Some J → c ∈ children J → reachable sk a c.

(** All descendants of [a] lie within [n] levels below it (so the part of
    the hierarchy under [a] has no cycle and no dangling reference). *)
Fixpoint height_le (sk : gmap string Joint) (n : nat) (a : string) : bool :=
  match n with
  | O => false
  | S n' =>
      match sk !! a with
      | Some J => forallb (height_le sk n') (children J)
      | None => false
      end
  end.

(** The pose a joint assigns to itself in one call of [set_motion]. *)
Definition own_pose (ps : gmap string Pose) (J : Joint) (motion : gmap string (list float64))
  : result Pose :=
  if decide (name J = "root") then root_pose J motion else joint_pose ps J motion.

(** The stored pose of [j] is the one [set_motion] computes from the pose
    its parent has now. *)
Definition settled (sk : gmap string Joint) (motion : gmap string (list float64))
    (ps : gmap string Pose) (j : string) : Prop :=
  ∃ J Pj, sk !! j = Some J ∧ ps !! j = Some Pj ∧ joint_pose ps J motion = Ok Pj.

(** [self.limits] is all zeros: the joint animates no axis. *)
Definition no_dof (J : Joint) : bool :=
  let '(lx, ly, lz) := limits J in
  is_zero_row lx && is_zero_row ly && is_zero_row lz.

(** The number of channel values [set_motion] reads for a joint. *)
Definition active_axes (J : Joint) : nat :=
  let '(lx, ly, lz) := limits J in
  (if is_zero_row lx then 0 else 1) + (if is_zero_row ly then 0 else 1)
  + (if is_zero_row lz then 0 else 1).

(** The local rotation of a joint that animates no axis: [euler2mat] of
    the angles [np.deg2rad(np.zeros(3))]. *)
Definition identity_rotation : mat :=
  euler2mat (deg2rad zero) (deg2rad zero) (deg2rad zero).

(** The frame has what [set_motion] will ask for: six values for [root],
    one value for each animated axis of the other joints, and no infinite
    angle among those it reads. *)
Definition frame_fits (sk : gmap string Joint) (motion : gmap string (list float64)) : Prop :=
  (∃ x y z a b c, motion !! "root" = Some [x; y; z; a; b; c]
     ∧ Forall (λ v, isinf (deg2rad v) = false) [a; b; c])
  ∧ ∀ k J, sk !! k = Some J → name J ≠ "root" →
      no_dof J = true
      ∨ ∃ vs, motion !! name J = Some vs ∧ (active_axes J ≤ List.length vs)%nat
              ∧ Forall (λ v, isinf (deg2rad v) = false) (take (active_axes J) vs).

(** The placement the specification describes: the k-th channel value of
    a joint goes to the slot named by the k-th tag of its DOF list
    ([rx] to x, [ry] to y, [rz] to z). *)
Definition put_by_tag (tag : string) (v : float64) (rot : vec) : vec :=
  let '(x, y, z) := rot in
  if decide (tag = "rx") then (v, y, z)
  else if decide (tag = "ry") then (x, v, z)
  else if decide (tag = "rz") then (x, y, v)
  else rot.

Fixpoint rotation_by_tag (dof : list string) (values : list float64) (rot : vec) : vec :=
  match dof, values with
  | tag :: dof', v :: values' => rotation_by_tag dof' values' (put_by_tag tag v rot)
  | _, _ => rot
  end.

(** What a driver over the frame indices [indices] is to show: the scene of
    each index in turn, every frame applied to the same joint objects. *)
Definition show_frames (fuel : nat) (sk : gmap string Joint)
    (motions : list (gmap string (list float64))) (indices : list nat)
    (ps : gmap string Pose) : result (gmap string Pose * list scene) :=
  for_each (λ (acc : gmap string Pose * list scene) f,
              '(ps', sc) ← update_3d_scene fuel sk motions f acc.1;
              Ok (ps', acc.2 ++ [sc]))
           (ps, []) indices.

(** The scenes of a run, when it returns. *)
Definition shown (r : result (gmap string Pose * list scene)) : option (list scene) :=
  match r with Ok (_, scenes) => Some scenes | Err _ => None end.

End Hierarchy.

(** ** The skeleton parser *)

Section SkeletonParser.
Context {num : Numerics}.

(** The dict [joint] that [parse_joint_block] fills: a key is present or not. *)
Record block : Type := {
  b_name : option string;
  b_direction : option (list float64);
  b_length : option float64;
  b_axis : option (list float64);
  b_dof : option (list string);
  b_limits : option (list (list float64))
}.

Definition empty_block : block :=
  {| b_name := None; b_direction := None; b_length := None;
     b_axis := None; b_dof := None; b_limits := None |}.

(** [' '.join(tokens)] *)
Fixpoint join_space (tokens : list string) : string :=
  match tokens with
  | [] => ""
  | [t] => t
  | t :: rest => t +:+ " " +:+ join_space rest
  end.

(** [s.replace('(', '').replace(')', '')] *)
Fixpoint remove_parens (s : string) : string :=
  match s with
  | EmptyString => EmptyString
  | String c rest =>
      if decide (c = "("%char ∨ c = ")"%char) then remove_parens rest
      else String c (remove_parens rest)
  end.

(** The handler of [key], applied to the line [key :: args]; a key without
    handler leaves the dict as it is. *)
Definition handle (key : string) (args : list string) (joint : block) : result block :=
  if decide (key = "name") then
    nm ← lookup_or IndexError (args !! 0);
    Ok {| b_name := Some nm; b_direction := b_direction joint; b_length := b_length joint;
          b_axis := b_axis joint; b_dof := b_dof joint; b_limits := b_limits joint |}
  else if decide (key = "direction") then
    d ← floats args;
    Ok {| b_name := b_name joint; b_direction := Some d; b_length := b_length joint;
          b_axis := b_axis joint; b_dof := b_dof joint; b_limits := b_limits joint |}
  else if decide (key = "length") then
    t ← lookup_or IndexError (args !! 0);
    len ← lookup_or ValueError (float_of_string t);
    Ok {| b_name := b_name joint; b_direction := b_direction joint; b_length := Some len;
          b_axis := b_axis joint; b_dof := b_dof joint; b_limits := b_limits joint |}
  else if decide (key = "axis") then
    a ← floats (removelast args);
    Ok {| b_name := b_name joint; b_direction := b_direction joint; b_length := b_length joint;
          b_axis := Some a; b_dof := b_dof joint; b_limits := b_limits joint |}
  else if decide (key = "dof") then
    Ok {| b_name := b_name joint; b_direction := b_direction joint; b_length := b_length joint;
          b_axis := b_axis joint; b_dof := Some args; b_limits := b_limits joint |}
  else if decide (key = "limits") then
    row ← floats (split (remove_parens (join_space args)));
    Ok {| b_name := b_name joint; b_direction := b_direction joint; b_length := b_length joint;
          b_axis := b_axis joint; b_dof := b_dof joint;
          b_limits := Some (default [] (b_limits joint) ++ [row]) |}
  else Ok joint.

(** The [while True] loop of [parse_joint_block] on the lines from
    [content[start_idx]] on. *)
Fixpoint parse_joint_block_from (lines : list string) (start_idx : nat) (joint : block)
  : result (block * nat) :=
  match lines with
  | [] => Err IndexError
  | raw :: rest =>
      match split raw with
      | [] => Err IndexError
      | key :: args =>
          if decide (key = "end") then Ok (joint, S start_idx)
          else
            joint' ← handle key args joint;
            parse_joint_block_from rest (S start_idx) joint'
      end
  end.

Definition parse_joint_block (content : list string) (start_idx : nat)
  : result (block * nat) :=
  parse_joint_block_from (drop start_idx content) start_idx empty_block.

(** The call [Joint(joint_data['name'], ..., joint_data.get('limits', []))]. *)
Definition build_joint (joint_data : block) : result Joint :=
  nm ← lookup_or KeyError (b_name joint_data);
  d ← lookup_or KeyError (b_direction joint_data);
  len ← lookup_or KeyError (b_length joint_data);
  a ← lookup_or KeyError (b_axis joint_data);
  Joint_init nm d len a (default [] (b_dof joint_data)) (default [] (b_limits joint_data)).

(** The [while idx < len(content)] loop of [parse_asf].  Every round moves
    [idx] forward, so [len(content)] rounds are enough: [fuel] counts the
    rounds left. *)
Fixpoint bonedata_loop (fuel : nat) (content : list string) (idx : nat)
    (joints : gmap string Joint) : result (gmap string Joint * nat) :=
  match fuel with
  | O => Ok (joints, idx)
  | S fuel' =>
      match content !! idx with
      | None => Ok (joints, idx)
      | Some raw =>
          match split raw with
          | [] => Err IndexError
          | key :: _ =>
              if decide (key = ":hierarchy") then Ok (joints, S idx)
              else if decide (key = "begin") then
                '(joint_data, idx') ← parse_joint_block content (S idx);
                J ← build_joint joint_data;
                bonedata_loop fuel' content idx' (<[name J := J]> joints)
              else bonedata_loop fuel' content (S idx) joints
          end
      end
  end.

(** The first loop of [parse_hierarchy]: the lines after the first line
    that starts with [begin]. *)
Fixpoint skip_to_begin (lines : list string) : result (list string) :=
  match lines with
  | [] => Err IndexError
  | raw :: rest =>
      match split raw with
      | [] => Err IndexError
      | key :: _ => if decide (key = "begin") then Ok rest else skip_to_begin rest
      end
  end.

(** The second loop of [parse_hierarchy]. *)
Fixpoint hierarchy_lines (lines : list string) (joints : gmap string Joint)
  : result (gmap string Joint) :=
  match lines with
  | [] => Err IndexError
  | raw :: rest =>
      match split raw with
      | [] => Err IndexError
      | key :: child_names =>
          if decide (key = "end") then Ok joints
          else
            _ ← lookup_or KeyError (joints !! key);
            joints' ← for_each (λ sk child_name, attach sk key child_name)
                               joints child_names;
            hierarchy_lines rest joints'
      end
  end.

Definition parse_hierarchy (content : list string) (idx : nat)
    (joints : gmap string Joint) : result (gmap string Joint) :=
  lines ← skip_to_begin (drop idx content);
  hierarchy_lines lines joints.

(** [parse_asf] on the lines of the file. *)
Definition parse_asf (content : list string) : result (gmap string Joint) :=
  content ← read_section_after content ":bonedata";
  root ← Joint_init "root" [zero; zero; zero] zero [zero; zero; zero] [] [];
  '(joints, idx) ← bonedata_loop (List.length content) content 0 {["root" := root]};
  parse_hierarchy content idx joints.

End SkeletonParser.

(** ** Time series *)

Section Views.
Context {num : Numerics}.

(** [extract_time_series_data]; the three lists of a marker are kept as
    one list of triples (x, y, z). *)
Definition extract_time_series_data (fuel : nat) (sk : gmap string Joint)
    (motions : list (gmap string (list float64))) (frames : list nat)
    (selected : list string) (ps : gmap string Pose)
  : result (gmap string Pose * gmap string (list vec)) :=
  let ts : gmap string (list vec) := list_to_map ((λ m, (m, [])) <$> selected) in
  for_each (λ (acc : gmap string Pose * gmap string (list vec)) f,
      _ ← lookup_or KeyError (sk !! "root");
      motion ← lookup_or IndexError (motions !! f);
      ps' ← set_motion fuel sk motion "root" acc.1;
      jd ← to_dict fuel sk "root";
      ts' ← for_each (λ (ts : gmap string (list vec)) m,
                 if decide (m ∈ jd) then
                   P ← lookup_or TypeError (ps' !! m);
                   Ok (alter (λ series, series ++ [coordinate P]) m ts)
                 else Ok ts) acc.2 selected;
      Ok (ps', ts'))
    (ps, ts) frames.

End Views.

(** ** A single frame, viewed on a copy of the joints *)

(** The standard library's [copy.deepcopy] walks the object graph by
    recursion and raises [RecursionError] when the walk goes deeper than
    the interpreter allows.  How deep it goes on given joints, several
    calls for each level of the hierarchy, is the library's business:
    [deepcopy_depth]. *)
Class Copier {num : Numerics} : Type := {
  deepcopy_depth : gmap string Joint → gmap string Pose → nat
}.

Section SingleFrame.
Context {num : Numerics} {cp : Copier}.

(** [copy.deepcopy(joints)]: the copy has the fields of the original. *)
Definition deepcopy (fuel : nat) (sk : gmap string Joint) (ps : gmap string Pose)
  : result (gmap string Pose) :=
  if decide (deepcopy_depth sk ps ≤ fuel) then Ok ps else Err RecursionError.

(** [visualize_skeleton]: the points it scatters and the segments it
    plots.  The frame is applied to a deep copy, so the caller's joints
    keep the poses [ps]. *)
Definition visualize_skeleton (fuel : nat) (sk : gmap string Joint) (ps : gmap string Pose)
    (motion_data : option (list (gmap string (list float64)))) (motion_frame : nat)
  : result (scene * list (vec * vec)) :=
  current_joints ← deepcopy fuel sk ps;
  current ← match motion_data with
            | Some data =>
                if decide (motion_frame < List.length data) then
                  _ ← lookup_or KeyError (sk !! "root");
                  motion ← lookup_or IndexError (data !! motion_frame);
                  set_motion fuel sk motion "root" current_joints
                else Ok current_joints
            | None => Ok current_joints
            end;
  _ ← lookup_or KeyError (sk !! "root");
  joint_dict ← to_dict fuel sk "root";
  points ← mapM (scatter_row current) joint_dict;
  segments ← for_each (λ drawn k, s ← segment sk current k; Ok (drawn ++ option_list s))
                      [] joint_dict;
  Ok (points, segments).

End SingleFrame.

(** ** Notions used in the statements about the parsers and the views *)

Section Notions.
Context {num : Numerics}.

(** The first token of the line is [key]. *)
Definition keyed (key raw : string) : bool :=
  match split raw with
  | k :: _ => bool_decide (k = key)
  | [] => false
  end.

(** The keys for which [parse_joint_block] has a handler. *)
Definition handled : list string :=
  ["name"; "direction"; "length"; "axis"; "dof"; "limits"].


(** The number of rows of [self.limits] that are not all zero. *)
Definition active_rows (ls : lim * lim * lim) : nat :=
  (if is_zero_row ls.1.1 then 0 else 1) + (if is_zero_row ls.1.2 then 0 else 1)
  + (if is_zero_row ls.2 then 0 else 1).

(** No joint has been attached yet. *)
Definition unattached (sk : gmap string Joint) : Prop :=
  ∀ k J, sk !! k = Some J → parent J = None ∧ children J = [].

(** [j] lies on a cycle of children lists. *)
Definition on_cycle (sk : gmap string Joint) (j : string) : Prop :=
  ∃ J c, sk !! j = Some J ∧ c ∈ children J ∧ reachable sk c j.

(** [frame_fits], as a check. *)
Definition frame_fitsb (sk : gmap string Joint) (motion : gmap string (list float64)) : bool :=
  match motion !! "root" with
  | Some [_; _; _; a; b; c] => forallb (λ v, negb (isinf (deg2rad v))) [a; b; c]
  | _ => false
  end
  && forallb (λ '(_, J),
       bool_decide (name J = "root") || no_dof J
       || match motion !! name J with
          | Some vs =>
              (active_axes J <=? List.length vs)
              && forallb (λ v, negb (isinf (deg2rad v))) (take (active_axes J) vs)
          | None => false
          end)
     (map_to_list sk).

End Notions.

(** ** Example data *)

Module Examples.
Import RightAngle.
#[local] Existing Instance numerics.

(** The scenario of the specification: [root] and one child [j1] with
    direction (0,1,0), length 10, axis (0,0,0), dof [rz], limits (-180,180). *)
Definition two_joints : gmap string Joint :=
  match
    r ← Joint_init "root" [0; 0; 0]%Z 0%Z [0; 0; 0]%Z [] [];
    j ← Joint_init "j1" [0; 1; 0]%Z 10%Z [0; 0; 0]%Z ["rz"] [[-180; 180]%Z];
    attach (<["j1" := j]> {["root" := r]}) "root" "j1"
  with
  | Ok sk => sk
  | Err _ => ∅
  end.

Definition quarter_turn : gmap string (list Z) :=
  {["root" := [0; 0; 0; 0; 0; 0]%Z; "j1" := [90]%Z]}.

(** The poses after [quarter_turn] is applied to the fresh skeleton. *)
Definition two_joints_posed : gmap string Pose :=
  match set_motion 2 two_joints quarter_turn "root" ∅ with
  | Ok ps => ps
  | Err _ => ∅
  end.

(** Poses left on a copy of the skeleton by another frame. *)
Definition two_joints_stale : gmap string Pose :=
  match set_motion 2 two_joints {["root" := [5; 5; 5; 90; 0; 0]%Z; "j1" := [180]%Z]} "root" ∅ with
  | Ok ps => ps
  | Err _ => ∅
  end.

(** A frame that lacks the entry of [j1]. *)
Definition root_only : gmap string (list Z) :=
  {["root" := [0; 0; 0; 0; 0; 0]%Z]}.

(** [root] with one child [tip] that animates no axis. *)
Definition rigid_pair : gmap string Joint :=
  match
    r ← Joint_init "root" [0; 0; 0]%Z 0%Z [0; 0; 0]%Z [] [];
    j ← Joint_init "tip" [1; 0; 0]%Z 3%Z [0; 0; 90]%Z [] [];
    attach (<["tip" := j]> {["root" := r]}) "root" "tip"
  with
  | Ok sk => sk
  | Err _ => ∅
  end.

Definition rigid_frame : gmap string (list Z) :=
  {["root" := [1; 2; 3; 0; 0; 90]%Z; "tip" := [45]%Z]}.

Definition rigid_pair_posed : gmap string Pose :=
  match set_motion 2 rigid_pair rigid_frame "root" ∅ with
  | Ok ps => ps
  | Err _ => ∅
  end.

(** A joint that declares [rz] before [rx]. *)
Definition swapped_dof : list string := ["rz"; "rx"].
Definition swapped_limits : list (list Z) := [[-180; 180]%Z; [-90; 90]%Z].
Definition swapped_values : list Z := [10; 20]%Z.

(** Three frames that turn [j1] by 0, 90 and 180 degrees about z. *)
Definition three_frames : list (gmap string (list Z)) :=
  [ {["root" := [0; 0; 0; 0; 0; 0]%Z; "j1" := [0]%Z]};
    {["root" := [0; 0; 0; 0; 0; 0]%Z; "j1" := [90]%Z]};
    {["root" := [0; 0; 0; 0; 0; 0]%Z; "j1" := [180]%Z]} ].

(** A motion file whose frame 1 has no channel line: the delimiter of
    frame 2 directly follows the delimiter of frame 1. *)
Definition zero_channel_file : list string :=
  [":DEGREES"; "1"; "2"; "root 0 0 0 0 0 0"; "j1 90"].

(** A motion file with a channel line for [ghost], which is no joint of
    [two_joints]. *)
Definition ghost_file : list string :=
  [":DEGREES"; "1"; "root 0 0 0 0 0 0"; "j1 90"; "ghost 45"].

Definition ghost_frame : gmap string (list Z) :=
  <["ghost" := [45]%Z]> quarter_turn.

End Examples.

Module AsfExamples.
Import RightAngle.
#[local] Existing Instance numerics.

(** A skeleton file with two bones; the limits of [lfemur] run over three
    lines, as in the files of the CMU database. *)
Definition leg_file : list string :=
  [ "# a comment"; ":units"; ":bonedata";
    "  begin";
    "     id 1";
    "     name lfemur";
    "     direction 0 1 0";
    "     length 10";
    "     axis 0 0 0 XYZ";
    "    dof rx ry rz";
    "    limits (-160 20)";
    "           (-70 70)";
    "           (-60 70)";
    "  end";
    "  begin";
    "     id 2";
    "     name ltibia";
    "     direction 0 1 0";
    "     length 5";
    "     axis 0 0 0 XYZ";
    "    dof rx";
    "    limits (-10 170)";
    "  end";
    ":hierarchy";
    "  begin";
    "    root lfemur";
    "    lfemur ltibia";
    "  end" ].

Definition leg : gmap string Joint :=
  match parse_asf leg_file with
  | Ok sk => sk
  | Err _ => ∅
  end.

(** One frame for [leg]: the three channels of [lfemur], one of [ltibia]. *)
Definition leg_frame : gmap string (list Z) :=
  {["root" := [0; 0; 0; 0; 0; 0]%Z; "lfemur" := [90; 90; 90]%Z; "ltibia" := [90]%Z]}.

End AsfExamples.

Module FurtherExamples.
Import RightAngle Examples.
#[local] Existing Instance numerics.

(** A hierarchy that lists [a] under [root] and then under itself. *)
Definition looped : gmap string Joint :=
  match
    r ← Joint_init "root" [0; 0; 0]%Z 0%Z [0; 0; 0]%Z [] [];
    a ← Joint_init "a" [0; 1; 0]%Z 1%Z [0; 0; 0]%Z [] [];
    sk ← attach (<["a" := a]> {["root" := r]}) "root" "a";
    attach sk "a" "a"
  with
  | Ok sk => sk
  | Err _ => ∅
  end.

(** A bone block that starts at index 1; its limits run over two lines. *)
Definition arm_block : list string :=
  ["  begin"; "name arm"; "direction 1 0 0"; "length 2"; "axis 0 0 0 XYZ";
   "dof rx ry"; "limits (-90 90)"; "(-45 45)"; "end"; "begin"].

(** A depth for [copy.deepcopy]: eight calls for each joint. *)
Definition copier : Copier := {| deepcopy_depth := λ sk _, 8 * size sk |}.

(** A motion file with a header before the marker line. *)
Definition headed_file : list string :=
  ["#!OML:ASF"; ":FULLY-SPECIFIED"; ":DEGREES"; "1"; "root 0 0 0 0 0 0"; "j1 90"].

End FurtherExamples.

(** * Properties *)

(** ** The error monad and loops *)

Section Loops.
Context {A B : Type}.

Lemma bind_Ok_inv (x : result A) (k : A → result B) (b : B) :
  x ≫= k = Ok b → ∃ a, x = Ok a ∧ k a = Ok b.
Proof. destruct x as [a|e]; simpl; [eauto | discriminate]. Qed.

Lemma lookup_or_Ok_inv (e : error) (o : option A) (a : A) :
  lookup_or e o = Ok a → o = Some a.
Proof. destruct o; simpl; congruence. Qed.

Lemma for_each_app (body : B → A → result B) (acc : B) (l1 l2 : list A) :
  for_each body acc (l1 ++ l2) = for_each body acc l1 ≫= λ acc', for_each body acc' l2.
Proof.
  revert acc. induction l1 as [|x l1 IH]; intros acc; simpl; [done|].
  destruct (body acc x); simpl; auto.
Qed.

Lemma for_each_ext (f g : B → A → result B) (acc : B) (l : list A) :
  (∀ b x, x ∈ l → f b x = g b x) → for_each f acc l = for_each g acc l.
Proof.
  revert acc. induction l as [|x l IH]; intros acc Hfg; simpl; [done|].
  rewrite (Hfg acc x) by left.
  destruct (g acc x); [|done]. apply IH. intros b y Hy. apply Hfg. by right.
Qed.

(** The loop rule: [I done acc] relates the accumulator to the elements
    already processed. *)
Lemma for_each_invariant (body : B → A → result B) (I : list A → B → Prop)
    (l : list A) (acc acc' : B) :
  I [] acc →
  (∀ done x b b', x ∈ l → I done b → body b x = Ok b' → I (done ++ [x]) b') →
  for_each body acc l = Ok acc' → I l acc'.
Proof.
  intros H0 Hstep.
  enough (∀ rest done b, l = done ++ rest → I done b →
            for_each body b rest = Ok acc' → I l acc') as Hgen
    by (apply (Hgen l [] acc); auto).
  induction rest as [|x rest IH]; intros done b Hl Hd Hrun; simpl in Hrun.
  - rewrite app_nil_r in Hl. congruence.
  - destruct (body b x) as [b'|] eqn:Hb; [|discriminate].
    apply (IH (done ++ [x]) b'); [by rewrite <- app_assoc | | done].
    apply (Hstep done x b b'); [|done..].
    rewrite Hl. apply elem_of_app. right. left.
Qed.

(** Progress: a loop whose body cannot fail under the invariant returns. *)
Lemma for_each_progress (body : B → A → result B) (I : list A → B → Prop)
    (l : list A) (acc : B) :
  I [] acc →
  (∀ done x b, x ∈ l → I done b → ∃ b', body b x = Ok b' ∧ I (done ++ [x]) b') →
  ∃ acc', for_each body acc l = Ok acc' ∧ I l acc'.
Proof.
  intros H0 Hstep.
  enough (∀ rest done b, l = done ++ rest → I done b →
            ∃ acc', for_each body b rest = Ok acc' ∧ I l acc') as Hgen
    by (apply (Hgen l [] acc); auto).
  induction rest as [|x rest IH]; intros done b Hl Hd; simpl.
  - rewrite app_nil_r in Hl. subst. eauto.
  - destruct (Hstep done x b) as (b' & -> & Hd'); [|done|].
    { rewrite Hl. apply elem_of_app. right. left. }
    apply (IH (done ++ [x]) b'); [by rewrite <- app_assoc | done].
Qed.

(** A loop that reaches an element on which the body always raises, raises. *)
Lemma for_each_raises (body : B → A → result B) (l : list A) (x : A) (acc : B) :
  x ∈ l → (∀ b, ∃ e, body b x = Err e) → ∃ e, for_each body acc l = Err e.
Proof.
  intros Hx Hbad. revert acc.
  induction l as [|y l IH]; intros acc; [by apply elem_of_nil in Hx|].
  simpl. apply elem_of_cons in Hx as [->|Hx].
  - destruct (Hbad acc) as [e ->]. eauto.
  - destruct (body acc y); eauto.
Qed.

End Loops.

(** Two runs of a loop over the same list, step by step. *)
Lemma for_each_simulation {A B1 B2 : Type} (body1 : B1 → A → result B1)
    (body2 : B2 → A → result B2) (R : list A → B1 → B2 → Prop)
    (l : list A) (acc1 acc1' : B1) (acc2 : B2) :
  R [] acc1 acc2 →
  (∀ done x b1 b2 b1', x ∈ l → R done b1 b2 → body1 b1 x = Ok b1' →
     ∃ b2', body2 b2 x = Ok b2' ∧ R (done ++ [x]) b1' b2') →
  for_each body1 acc1 l = Ok acc1' →
  ∃ acc2', for_each body2 acc2 l = Ok acc2' ∧ R l acc1' acc2'.
Proof.
  intros H0 Hstep.
  enough (∀ rest done b1 b2, l = done ++ rest → R done b1 b2 →
            for_each body1 b1 rest = Ok acc1' →
            ∃ acc2', for_each body2 b2 rest = Ok acc2' ∧ R l acc1' acc2') as Hgen
    by (apply (Hgen l [] acc1 acc2); auto).
  induction rest as [|x rest IH]; intros done b1 b2 Hl Hd Hrun; simpl in *.
  - rewrite app_nil_r in Hl. simplify_eq. eauto.
  - destruct (body1 b1 x) as [b1'|] eqn:Hb; [|discriminate].
    destruct (Hstep done x b1 b2 b1') as (b2' & -> & Hd'); [|done..|].
    { rewrite Hl. apply elem_of_app. right. left. }
    apply (IH (done ++ [x]) b1' b2'); [by rewrite <- app_assoc | done..].
Qed.

(** ** The motion parser *)

Section Parser.
Context {num : Numerics}.

Lemma amc_line_delimiter (frames : list (gmap string (list float64)))
    (current_frame : gmap string (list float64)) (raw key : string) (rest : list string) :
  split raw = key :: rest → isnumeric key = true →
  amc_line (frames, current_frame) raw =
    Ok (if decide (size current_frame = 0) then (frames, current_frame)
        else (frames ++ [current_frame], ∅)).
Proof.
  intros Hs Hk. unfold amc_line. rewrite Hs, Hk. by case_decide.
Qed.

Lemma amc_line_channel (frames : list (gmap string (list float64)))
    (current_frame : gmap string (list float64)) (raw key : string) (rest : list string) :
  split raw = key :: rest → isnumeric key = false →
  amc_line (frames, current_frame) raw =
    (vs ← floats rest; Ok (frames, <[key := vs]> current_frame)).
Proof. intros Hs Hk. unfold amc_line. by rewrite Hs, Hk. Qed.

(** A delimiter line is not the section marker. *)
Lemma delimiter_not_marker (raw key : string) (rest : list string) :
  split raw = key :: rest → isnumeric key = true → raw ≠ ":DEGREES".
Proof. intros Hs Hk ->. vm_compute in Hs. by simplify_eq. Qed.

Lemma read_section_after_app (pre post : list string) (keyword : string) :
  read_section_after (pre ++ post) keyword =
    match read_section_after pre keyword with
    | Ok rest => Ok (rest ++ post)
    | Err _ => read_section_after post keyword
    end.
Proof.
  induction pre as [|l pre IH]; simpl.
  - by destruct (read_section_after post keyword).
  - by case_decide.
Qed.

(** A delimiter that directly follows a delimiter changes nothing. *)
Lemma amc_line_delimiter_twice (st : list (gmap string (list float64)) * gmap string (list float64))
    (d1 d2 k1 k2 : string) (r1 r2 : list string) :
  split d1 = k1 :: r1 → isnumeric k1 = true →
  split d2 = k2 :: r2 → isnumeric k2 = true →
  for_each amc_line st (d1 :: d2 :: []) = for_each amc_line st [d2].
Proof.
  intros H1 K1 H2 K2. destruct st as [frames cur]. cbn [for_each].
  rewrite (amc_line_delimiter _ _ _ _ _ H1 K1), (amc_line_delimiter _ _ _ _ _ H2 K2).
  case_decide as Hsz.
  - rewrite (amc_line_delimiter _ _ _ _ _ H2 K2). by rewrite decide_True.
  - rewrite (amc_line_delimiter _ _ _ _ _ H2 K2).
    by rewrite decide_True by apply map_size_empty.
Qed.

Lemma for_each_amc_line_nonempty (content : list string)
    (frames frames' : list (gmap string (list float64)))
    (cur cur' : gmap string (list float64)) :
  Forall (λ fr, size fr ≠ 0) frames →
  for_each amc_line (frames, cur) content = Ok (frames', cur') →
  Forall (λ fr, size fr ≠ 0) frames'.
Proof.
  intros Hf Hrun.
  apply (for_each_invariant amc_line (λ _ st, Forall (λ fr, size fr ≠ 0) st.1)
           content (frames, cur) (frames', cur')); [done| |done].
  clear. intros _ raw [fs c] [fs' c'] _ Hfs Hstep. simpl in *.
  unfold amc_line in Hstep. destruct (split raw) as [|key values]; [by simplify_eq|].
  destruct (isnumeric key).
  - case_decide; simplify_eq; [done|].
    apply Forall_app. split; [done|]. by apply Forall_singleton.
  - apply bind_Ok_inv in Hstep as (vs & _ & ?). by simplify_eq.
Qed.

(** C8 (amended): a zero-channel frame -- a delimiter line directly followed
    by the next delimiter line -- is not rejected.  The first of the two
    delimiters leaves the parser state as it is, so the file parses exactly
    like the file without that line: no empty frame is appended and no
    error is raised on its account. *)
Theorem parse_amc_skips_zero_channel_frame (pre post : list string)
    (d1 d2 k1 k2 : string) (r1 r2 : list string) :
  split d1 = k1 :: r1 → isnumeric k1 = true →
  split d2 = k2 :: r2 → isnumeric k2 = true →
  parse_amc (pre ++ d1 :: d2 :: post) = parse_amc (pre ++ d2 :: post).
Proof.
  intros H1 K1 H2 K2. unfold parse_amc.
  rewrite !read_section_after_app.
  destruct (read_section_after pre ":DEGREES") as [rest|_].
  - change (d1 :: d2 :: post) with ([d1; d2] ++ post).
    change (d2 :: post) with ([d2] ++ post).
    unfold mbind, result_bind. rewrite !for_each_app.
    destruct (for_each amc_line ([], ∅) rest) as [st|]; [|done].
    unfold mbind, result_bind.
    rewrite !for_each_app.
    by rewrite (amc_line_delimiter_twice st d1 d2 k1 k2 r1 r2).
  - cbn [read_section_after].
    rewrite decide_False by eauto using delimiter_not_marker. done.
Qed.

(** C10: every frame returned by [parse_amc] is a non-empty mapping; a
    delimiter line that arrives while the current frame is empty leaves the
    list of frames and the empty current frame as they are, without error. *)
Theorem parse_amc_frames_nonempty (content : list string)
    (frames done : list (gmap string (list float64)))
    (raw key : string) (rest : list string) :
  parse_amc content = Ok frames →
  split raw = key :: rest → isnumeric key = true →
  Forall (λ fr : gmap string (list float64), fr ≠ ∅) frames
  ∧ amc_line (done, ∅) raw = Ok (done, ∅).
Proof.
  intros Hp Hs Hk. split.
  - unfold parse_amc in Hp.
    apply bind_Ok_inv in Hp as (lines & _ & Hp).
    apply bind_Ok_inv in Hp as ([fs cur] & Hrun & Hp).
    apply for_each_amc_line_nonempty in Hrun; [|constructor].
    assert (Forall (λ fr : gmap string (list float64), size fr ≠ 0) frames) as Hne.
    { case_decide; simplify_eq; [done|].
      apply Forall_app. split; [done|]. by apply Forall_singleton. }
    eapply Forall_impl; [exact Hne|]. intros fr Hsz ->. by rewrite map_size_empty in Hsz.
  - rewrite (amc_line_delimiter _ _ _ _ _ Hs Hk).
    by rewrite decide_True by apply map_size_empty.
Qed.

End Parser.

(** ** Forward kinematics *)

Section Kinematics.
Context {num : Numerics}.

Lemma euler2mat_call_Ok_inv (ai aj ak : float64) (e : mat) :
  euler2mat_call ai aj ak = Ok e →
  e = euler2mat ai aj ak ∧ isinf ai = false ∧ isinf aj = false ∧ isinf ak = false.
Proof.
  unfold euler2mat_call.
  destruct (isinf ai), (isinf aj), (isinf ak); simpl; try discriminate.
  by intros [= <-].
Qed.

Lemma euler2mat_call_finite (ai aj ak : float64) :
  isinf ai = false → isinf aj = false → isinf ak = false →
  euler2mat_call ai aj ak = Ok (euler2mat ai aj ak).
Proof. unfold euler2mat_call. by intros -> -> ->. Qed.

Lemma set_motion_S (fuel : nat) (sk : gmap string Joint)
    (motion : gmap string (list float64)) (self : string) (ps : gmap string Pose) :
  set_motion (S fuel) sk motion self ps =
    (J ← lookup_or DanglingReference (sk !! self);
     pose ← own_pose ps J motion;
     for_each (λ ps' child, set_motion fuel sk motion child ps')
              (<[self := pose]> ps) (children J)).
Proof. reflexivity. Qed.

Lemma set_motion_Ok_inv (fuel : nat) (sk : gmap string Joint)
    (motion : gmap string (list float64)) (self : string) (ps ps' : gmap string Pose) :
  set_motion fuel sk motion self ps = Ok ps' →
  ∃ f J pose, fuel = S f ∧ sk !! self = Some J ∧ own_pose ps J motion = Ok pose ∧
    for_each (λ ps' child, set_motion f sk motion child ps')
             (<[self := pose]> ps) (children J) = Ok ps'.
Proof.
  destruct fuel as [|f]; [discriminate|]. rewrite set_motion_S. intros H.
  apply bind_Ok_inv in H as (J & HJ%lookup_or_Ok_inv & H).
  apply bind_Ok_inv in H as (pose & Hpose & H). eauto 10.
Qed.

Lemma reachable_head (sk : gmap string Joint) (a b : string) :
  reachable sk a b →
  b = a ∨ ∃ J c, sk !! a = Some J ∧ c ∈ children J ∧ reachable sk c b.
Proof.
  induction 1 as [|b J c Hab IH HJ Hc]; [by left|]. right.
  destruct IH as [->|(Ja & c0 & Ha & Hc0 & Hreach)].
  - exists J, c. split_and!; [done..|constructor].
  - exists Ja, c0. split_and!; [done..|]. by eapply reachable_child.
Qed.

Lemma joint_pose_insert (ps : gmap string Pose) (J : Joint)
    (motion : gmap string (list float64)) (k : string) (pose : Pose) :
  parent J ≠ Some k → joint_pose (<[k := pose]> ps) J motion = joint_pose ps J motion.
Proof.
  intros Hp. unfold joint_pose.
  destruct (local_rotation J motion) as [[[rx ry] rz]|]; [|done]. simpl.
  destruct (parent J) as [p|]; [|done]. simpl.
  rewrite lookup_insert_ne by congruence. done.
Qed.

Lemma settled_insert (sk : gmap string Joint) (motion : gmap string (list float64))
    (ps : gmap string Pose) (j k : string) (pose : Pose) :
  j ≠ k → (∀ J, sk !! j = Some J → parent J ≠ Some k) →
  settled sk motion ps j → settled sk motion (<[k := pose]> ps) j.
Proof.
  intros Hjk Hp (J & Pj & HJ & HPj & Heq). exists J, Pj. split_and!; [done| |].
  - by rewrite lookup_insert_ne.
  - rewrite joint_pose_insert; eauto.
Qed.

(** One call of [set_motion] keeps every settled joint settled and settles
    the joint it is called on. *)
Lemma set_motion_settles (sk : gmap string Joint) (motion : gmap string (list float64)) :
  named sk → parent_linked sk →
  ∀ fuel self ps ps',
    set_motion fuel sk motion self ps = Ok ps' →
    (∀ j, j ≠ "root" → settled sk motion ps j → settled sk motion ps' j)
    ∧ (self ≠ "root" → settled sk motion ps' self).
Proof.
  intros Hnamed Hlinked. induction fuel as [|f IH]; intros self ps ps' Hrun;
    apply set_motion_Ok_inv in Hrun as (f' & J & pose & Hf & HJ & Hpose & Hloop);
    [discriminate|]. simplify_eq.
  pose proof (Hnamed _ _ HJ) as Hname.
  set (ps1 := <[self := pose]> ps) in *.
  assert (∀ j, j ≠ "root" → settled sk motion ps1 j ∨ j ∈ children J →
               settled sk motion ps' j) as Hall.
  { refine (for_each_invariant _
      (λ done b, ∀ j, j ≠ "root" → settled sk motion ps1 j ∨ j ∈ done →
                      settled sk motion b j) _ _ _ _ _ Hloop).
    - intros j _ [?|Hin]; [done|]. by apply elem_of_nil in Hin.
    - intros done x b b' _ Hinv Hx j Hj Hcase.
      destruct (IH _ _ _ Hx) as [Hkeep Hnew].
      destruct Hcase as [Hs|[Hd|Hlast%list_elem_of_singleton]%elem_of_app].
      + apply Hkeep; auto.
      + apply Hkeep; auto.
      + subst. auto. }
  assert (self ≠ "root" → parent J ≠ Some self → settled sk motion ps1 self) as Hself.
  { intros Hroot Hpar. exists J, pose. split_and!; [done|by apply lookup_insert_eq|].
    unfold ps1. rewrite joint_pose_insert by done.
    unfold own_pose in Hpose. rewrite decide_False in Hpose by congruence. done. }
  split.
  - intros j Hj Hs. apply Hall; [done|].
    destruct Hs as (Jj & Pj & HJj & HPj & Heq).
    destruct (decide (parent Jj = Some self)) as [Hp|Hp].
    { right. destruct (Hlinked _ _ _ HJj Hp) as (P & HP & Hin). by simplify_eq. }
    left. destruct (decide (j = self)) as [->|Hne].
    + simplify_eq. auto.
    + apply settled_insert; [done| |by exists Jj, Pj].
      intros J' HJ'. by simplify_eq.
  - intros Hroot. apply Hall; [done|].
    destruct (decide (parent J = Some self)) as [Hp|Hp]; [|auto].
    right. destruct (Hlinked _ _ _ HJ Hp) as (P & HP & Hin). by simplify_eq.
Qed.

(** After a call on [self], every joint below [self] is settled. *)
Lemma set_motion_settles_below (sk : gmap string Joint) (motion : gmap string (list float64)) :
  named sk → parent_linked sk →
  ∀ fuel self ps ps' j,
    set_motion fuel sk motion self ps = Ok ps' →
    reachable sk self j → j ≠ "root" → settled sk motion ps' j.
Proof.
  intros Hnamed Hlinked. induction fuel as [|f IH]; intros self ps ps' j Hrun Hreach Hj.
  { discriminate. }
  apply reachable_head in Hreach as [->|(J & c & HJ & Hc & Hreach)].
  { by apply (set_motion_settles sk motion Hnamed Hlinked _ _ _ _ Hrun). }
  apply set_motion_Ok_inv in Hrun as (f' & J' & pose & Hf & HJ' & Hpose & Hloop).
  simplify_eq.
  refine (for_each_invariant _
    (λ done b, c ∈ done → settled sk motion b j) _ _ _ _ _ Hloop Hc).
  - intros Hin. by apply elem_of_nil in Hin.
  - intros done x b b' _ Hinv Hx [Hd|Hlast%list_elem_of_singleton]%elem_of_app.
    + apply (set_motion_settles sk motion Hnamed Hlinked _ _ _ _ Hx); auto.
    + subst. eapply IH; eauto.
Qed.

(** What [settled] says, written out. *)
Lemma settled_equation (sk : gmap string Joint) (motion : gmap string (list float64))
    (ps : gmap string Pose) (j : string) :
  settled sk motion ps j →
  ∃ J p P Pj rx ry rz,
    sk !! j = Some J ∧ parent J = Some p ∧ ps !! p = Some P ∧ ps !! j = Some Pj
    ∧ local_rotation J motion = Ok (rx, ry, rz)
    ∧ matrix Pj = dot (dot (dot (matrix P) (C J))
                           (euler2mat (deg2rad rx) (deg2rad ry) (deg2rad rz)))
                      (Cinv J)
    ∧ coordinate Pj =
        vadd (coordinate P) (scale (length J) (dotv (matrix Pj) (direction J))).
Proof.
  intros (J & Pj & HJ & HPj & Heq).
  unfold joint_pose in Heq.
  apply bind_Ok_inv in Heq as ([[rx ry] rz] & Hrot & Heq).
  apply bind_Ok_inv in Heq as (p & Hp%lookup_or_Ok_inv & Heq).
  apply bind_Ok_inv in Heq as (P & HP%lookup_or_Ok_inv & Heq).
  apply bind_Ok_inv in Heq as (e & [-> _]%euler2mat_call_Ok_inv & Heq).
  simplify_eq. exists J, p, P. eexists. exists rx, ry, rz. by split_and!.
Qed.

(** C1: when the frames of a sequence are applied one after the other from
    [root], then after each of them -- the first or any later one -- every
    joint below [root] other than [root] sits at its parent's world position
    plus [length] times its own world rotation applied to [direction]; the
    rotation is the one computed for that same frame,
    [parent.matrix . C . euler2mat(rotation) . Cinv]. *)
Theorem set_motion_child_position (fuel : nat) (sk : gmap string Joint)
    (earlier : list (gmap string (list float64))) (motion : gmap string (list float64))
    (ps ps' : gmap string Pose) (j : string) :
  named sk → parent_linked sk →
  apply_frames fuel sk (earlier ++ [motion]) ps = Ok ps' →
  reachable sk "root" j → j ≠ "root" →
  ∃ J p P Pj rx ry rz,
    sk !! j = Some J ∧ parent J = Some p ∧ ps' !! p = Some P ∧ ps' !! j = Some Pj
    ∧ local_rotation J motion = Ok (rx, ry, rz)
    ∧ matrix Pj = dot (dot (dot (matrix P) (C J))
                           (euler2mat (deg2rad rx) (deg2rad ry) (deg2rad rz)))
                      (Cinv J)
    ∧ coordinate Pj =
        vadd (coordinate P) (scale (length J) (dotv (matrix Pj) (direction J))).
Proof.
  intros Hnamed Hlinked Hrun Hreach Hj. apply settled_equation.
  unfold apply_frames in Hrun. rewrite for_each_app in Hrun.
  apply bind_Ok_inv in Hrun as (ps1 & _ & Hrun). cbn [for_each] in Hrun.
  destruct (set_motion fuel sk motion "root" ps1) as [ps2|] eqn:Hlast; [|discriminate].
  injection Hrun as <-.
  by apply (set_motion_settles_below sk motion Hnamed Hlinked _ _ _ _ _ Hlast Hreach Hj).
Qed.

(** The pose of [root] for a frame does not depend on what is stored. *)
Lemma set_motion_keeps_root (sk : gmap string Joint) (motion : gmap string (list float64))
    (Jr : Joint) (pose0 : Pose) :
  named sk → sk !! "root" = Some Jr → root_pose Jr motion = Ok pose0 →
  ∀ fuel self ps ps',
    set_motion fuel sk motion self ps = Ok ps' →
    self = "root" ∨ ps !! "root" = Some pose0 →
    ps' !! "root" = Some pose0.
Proof.
  intros Hnamed HJr Hpose0. induction fuel as [|f IH]; intros self ps ps' Hrun Hpre;
    apply set_motion_Ok_inv in Hrun as (f' & J & pose & Hf & HJ & Hpose & Hloop);
    [discriminate|]. simplify_eq.
  pose proof (Hnamed _ _ HJ) as Hname.
  assert (<[self := pose]> ps !! "root" = Some pose0) as H1.
  { destruct (decide (self = "root")) as [->|Hne].
    - simplify_eq. unfold own_pose in Hpose.
      rewrite decide_True in Hpose by done. rewrite lookup_insert_eq. congruence.
    - rewrite lookup_insert_ne by done. by destruct Hpre. }
  refine (for_each_invariant _ (λ _ b, b !! "root" = Some pose0) _ _ _ H1 _ Hloop).
  intros _ x b b' _ Hb Hx. eapply IH; eauto.
Qed.

(** C3: after a frame is applied from [root], the world position of [root]
    is the first three values of the frame's [root] entry, as they are. *)
Theorem set_motion_root_position (fuel : nat) (sk : gmap string Joint)
    (motion : gmap string (list float64)) (ps ps' : gmap string Pose) :
  named sk →
  set_motion fuel sk motion "root" ps = Ok ps' →
  ∃ x y z rest P,
    motion !! "root" = Some (x :: y :: z :: rest)
    ∧ ps' !! "root" = Some P ∧ coordinate P = (x, y, z).
Proof.
  intros Hnamed Hrun.
  pose proof Hrun as Hinv.
  apply set_motion_Ok_inv in Hinv as (f & J & pose & Hf & HJ & Hpose & _).
  unfold own_pose in Hpose. rewrite decide_True in Hpose by eauto.
  pose proof (set_motion_keeps_root sk motion J pose Hnamed HJ Hpose _ _ _ _ Hrun
                (or_introl eq_refl)) as Hroot.
  unfold root_pose in Hpose.
  apply bind_Ok_inv in Hpose as (vs & Hvs%lookup_or_Ok_inv & Hpose).
  apply bind_Ok_inv in Hpose as (coord & Hcoord & Hpose).
  apply bind_Ok_inv in Hpose as (e & He & Hpose). simplify_eq.
  destruct vs as [|x [|y [|z rest]]]; try discriminate.
  exists x, y, z, rest. eexists. split_and!; [done..|].
  simpl in *. unfold as_vec3 in Hcoord. simpl in Hcoord. by simplify_eq.
Qed.

(** Two runs of [set_motion] on the same skeleton and frame, started from
    pose maps that agree on the parent of [self], agree wherever they
    agreed before, on [self], and on everything below [self]. *)
Lemma set_motion_simulation (sk : gmap string Joint) (motion : gmap string (list float64)) :
  children_linked sk →
  ∀ fuel self ps1 ps2 ps1',
    (∀ J, sk !! self = Some J →
       name J = "root" ∨ ∃ p, parent J = Some p ∧ ps1 !! p = ps2 !! p) →
    set_motion fuel sk motion self ps1 = Ok ps1' →
    ∃ ps2', set_motion fuel sk motion self ps2 = Ok ps2'
      ∧ (∀ j, ps1 !! j = ps2 !! j → ps1' !! j = ps2' !! j)
      ∧ (∀ j, reachable sk self j → ps1' !! j = ps2' !! j).
Proof.
  intros Hlinked. induction fuel as [|f IH]; intros self ps1 ps2 ps1' Hpre Hrun;
    apply set_motion_Ok_inv in Hrun as (f' & J & pose & Hf & HJ & Hpose & Hloop);
    [discriminate|]. simplify_eq.
  assert (own_pose ps2 J motion = Ok pose) as Hpose2.
  { unfold own_pose in *. case_decide; [done|].
    destruct (Hpre J HJ) as [?|(p & Hp & Hagree)]; [done|].
    unfold joint_pose in *. rewrite Hp in *. simpl in *. by rewrite <- Hagree. }
  rewrite set_motion_S, HJ. simpl. rewrite Hpose2. simpl.
  set (q1 := <[self := pose]> ps1) in *. set (q2 := <[self := pose]> ps2).
  assert (q1 !! self = q2 !! self) as Hself by (unfold q1, q2; by rewrite !lookup_insert_eq).
  assert (∀ j, ps1 !! j = ps2 !! j → q1 !! j = q2 !! j) as Hkeep.
  { intros j Hj. unfold q1, q2. destruct (decide (self = j)) as [->|Hne].
    - by rewrite !lookup_insert_eq.
    - by rewrite !lookup_insert_ne. }
  destruct (for_each_simulation
    (λ ps' child, set_motion f' sk motion child ps')
    (λ ps' child, set_motion f' sk motion child ps')
    (λ done b1 b2,
       (∀ j, q1 !! j = q2 !! j → b1 !! j = b2 !! j)
       ∧ (∀ c j, c ∈ done → reachable sk c j → b1 !! j = b2 !! j))
    (children J) q1 ps1' q2) as (ps2' & Hrun2 & Hmono & Hbelow); [| |done|].
  - split; [done|]. intros c j Hin. by apply elem_of_nil in Hin.
  - intros done x b1 b2 b1' Hx [Hm Hb] Hstep.
    destruct (IH x b1 b2 b1') as (b2' & Hstep2 & Hm2 & Hb2); [|done|].
    { intros Jx HJx. right. destruct (Hlinked _ _ _ HJ Hx) as (Jx' & ? & Hp).
      simplify_eq. eauto. }
    exists b2'. split_and!; [done|auto|].
    intros c j [Hd|Hlast%list_elem_of_singleton]%elem_of_app Hreach.
    + apply Hm2. eauto.
    + subst. auto.
  - exists ps2'. split_and!; [done|auto|].
    intros j Hreach. apply reachable_head in Hreach as [->|(J' & c & HJ' & Hc & Hreach)].
    + auto.
    + simplify_eq. eauto.
Qed.

(** C6: a second skeleton object with the same static descriptors and the
    same links -- the same [sk] with its own pose map, such as a deep copy
    on which other frames were applied -- gives, for the same frame, the
    same outcome: it returns when the first returns, and every joint below
    [root] has the same world position and rotation matrix in both. *)
Theorem set_motion_deterministic (fuel : nat) (sk : gmap string Joint)
    (motion : gmap string (list float64)) (ps1 ps2 ps1' : gmap string Pose) :
  named sk → children_linked sk →
  set_motion fuel sk motion "root" ps1 = Ok ps1' →
  ∃ ps2', set_motion fuel sk motion "root" ps2 = Ok ps2'
    ∧ ∀ j, reachable sk "root" j → ps1' !! j = ps2' !! j.
Proof.
  intros Hnamed Hlinked Hrun.
  destruct (set_motion_simulation sk motion Hlinked fuel "root" ps1 ps2 ps1')
    as (ps2' & Hrun2 & _ & Hbelow); [|done|eauto].
  intros J HJ. left. eauto.
Qed.

Lemma local_rotation_no_dof (J : Joint) (motion : gmap string (list float64)) :
  no_dof J = true → local_rotation J motion = Ok (zero, zero, zero).
Proof.
  unfold no_dof, local_rotation, take_channel.
  destruct (limits J) as [[lx ly] lz].
  intros [[-> ->]%andb_prop ->]%andb_prop. done.
Qed.

Lemma local_rotation_missing (J : Joint) (motion : gmap string (list float64)) :
  no_dof J = false → motion !! name J = None → local_rotation J motion = Err KeyError.
Proof.
  unfold no_dof, local_rotation, take_channel.
  destruct (limits J) as [[lx ly] lz]. intros Hdof ->.
  destruct (is_zero_row lx), (is_zero_row ly), (is_zero_row lz); done.
Qed.

(** A call on any joint above a joint whose lookup in the frame raises,
    raises. *)
Lemma set_motion_raises_above (sk : gmap string Joint) (motion : gmap string (list float64))
    (j : string) (J : Joint) :
  sk !! j = Some J → name J ≠ "root" → no_dof J = false → motion !! name J = None →
  ∀ fuel top ps, reachable sk top j → ∃ e, set_motion fuel sk motion top ps = Err e.
Proof.
  intros HJ Hname Hdof Hmiss.
  induction fuel as [|f IH]; intros top ps Hreach; [by eexists|].
  rewrite set_motion_S.
  apply reachable_head in Hreach as [->|(Jt & c & HJt & Hc & Hreach)].
  - rewrite HJ. simpl. unfold own_pose. rewrite decide_False by done.
    unfold joint_pose. rewrite local_rotation_missing by done. by eexists.
  - rewrite HJt. simpl. destruct (own_pose ps Jt motion) as [pose|]; simpl; [|by eexists].
    apply (for_each_raises _ _ c); [done|]. intros b. by apply IH.
Qed.

(** C7: when a joint below [root], other than [root], animates an axis
    (its limits are not all zero) and the frame has no entry under its
    name, applying the frame raises, whatever the recursion depth allowed
    and the poses stored before: it never returns a pose map.  The call on
    that joint itself raises [KeyError] at the lookup of its name in the
    frame; no value is put in place of the missing one. *)
Theorem set_motion_missing_channel (fuel : nat) (sk : gmap string Joint)
    (motion : gmap string (list float64)) (ps : gmap string Pose) (j : string) (J : Joint) :
  reachable sk "root" j → sk !! j = Some J → name J ≠ "root" →
  no_dof J = false → motion !! name J = None →
  (∃ e, set_motion fuel sk motion "root" ps = Err e)
  ∧ set_motion (S fuel) sk motion j ps = Err KeyError.
Proof.
  intros Hreach HJ Hname Hdof Hmiss. split.
  - by apply (set_motion_raises_above sk motion j J).
  - rewrite set_motion_S, HJ. simpl. unfold own_pose. rewrite decide_False by done.
    unfold joint_pose. by rewrite local_rotation_missing.
Qed.

(** [set_motion] reads a frame only through the poses the joints assign
    to themselves. *)
Lemma set_motion_frame_ext (sk : gmap string Joint) (m1 m2 : gmap string (list float64)) :
  (∀ k J ps, sk !! k = Some J → own_pose ps J m1 = own_pose ps J m2) →
  ∀ fuel self ps, set_motion fuel sk m1 self ps = set_motion fuel sk m2 self ps.
Proof.
  intros Hsame. induction fuel as [|f IH]; intros self ps; [done|].
  rewrite !set_motion_S. destruct (sk !! self) as [J|] eqn:HJ; [|done]. simpl.
  rewrite (Hsame self J ps HJ). destruct (own_pose ps J m2) as [pose|]; [|done]. simpl.
  apply for_each_ext. intros b x _. apply IH.
Qed.

Lemma take_channel_frame_ext (J : Joint) (m1 m2 : gmap string (list float64))
    (lm : lim) (idx : nat) :
  m1 !! name J = m2 !! name J → take_channel J m1 lm idx = take_channel J m2 lm idx.
Proof. intros H. unfold take_channel. by rewrite H. Qed.

Lemma local_rotation_frame_ext (J : Joint) (m1 m2 : gmap string (list float64)) :
  m1 !! name J = m2 !! name J → local_rotation J m1 = local_rotation J m2.
Proof.
  intros H. unfold local_rotation. destruct (limits J) as [[lx ly] lz].
  rewrite (take_channel_frame_ext J m1 m2 lx 0 H).
  destruct (take_channel J m2 lx 0) as [[rx i1]|]; [|done]. simpl.
  rewrite (take_channel_frame_ext J m1 m2 ly i1 H).
  destruct (take_channel J m2 ly i1) as [[ry i2]|]; [|done]. simpl.
  by rewrite (take_channel_frame_ext J m1 m2 lz i2 H).
Qed.

(** The pose of a joint depends on the frame through the entry under
    [root] for the root and through the entry under its own name, when it
    animates an axis, for the others. *)
Lemma own_pose_frame_ext (ps : gmap string Pose) (J : Joint)
    (m1 m2 : gmap string (list float64)) :
  (name J = "root" → m1 !! "root" = m2 !! "root") →
  (name J ≠ "root" → no_dof J = false → m1 !! name J = m2 !! name J) →
  own_pose ps J m1 = own_pose ps J m2.
Proof.
  intros Hroot Hother. unfold own_pose. case_decide as Hn.
  - unfold root_pose. by rewrite Hroot.
  - unfold joint_pose. destruct (no_dof J) eqn:Hdof.
    + by rewrite !local_rotation_no_dof.
    + by rewrite (local_rotation_frame_ext J m1 m2) by auto.
Qed.

(** An entry of the frame under a name that no joint of the skeleton bears
    is never read. *)
Lemma set_motion_ignores_unknown (sk : gmap string Joint) (motion : gmap string (list float64))
    (ghost : string) (fuel : nat) (ps : gmap string Pose) :
  named sk → sk !! ghost = None →
  set_motion fuel sk motion "root" ps = set_motion fuel sk (delete ghost motion) "root" ps.
Proof.
  intros Hnamed Hghost. destruct (decide (ghost = "root")) as [->|Hne].
  { destruct fuel; [done|]. by rewrite !set_motion_S, Hghost. }
  apply set_motion_frame_ext. intros k J ps0 HJ.
  pose proof (Hnamed _ _ HJ) as Hname.
  apply own_pose_frame_ext; intros; rewrite lookup_delete_ne; congruence.
Qed.

(** C9 (amended): a channel line for a joint name that is absent from the
    skeleton is parsed like any other channel line -- the parser does not
    consult the skeleton -- and applying a frame that holds such an entry
    does not fail on its account: the entry is never read, and the outcome
    is the outcome for the frame without it. *)
Theorem unknown_joint_is_ignored (sk : gmap string Joint)
    (frames : list (gmap string (list float64))) (current_frame : gmap string (list float64))
    (raw ghost : string) (values : list string) (vs : list float64)
    (motion : gmap string (list float64)) (fuel : nat) (ps : gmap string Pose) :
  named sk → sk !! ghost = None →
  split raw = ghost :: values → isnumeric ghost = false → floats values = Ok vs →
  motion !! ghost = Some vs →
  amc_line (frames, current_frame) raw = Ok (frames, <[ghost := vs]> current_frame)
  ∧ set_motion fuel sk motion "root" ps
    = set_motion fuel sk (delete ghost motion) "root" ps.
Proof.
  intros Hnamed Hghost Hs Hk Hv _. split.
  - rewrite (amc_line_channel _ _ _ _ _ Hs Hk), Hv. done.
  - by apply set_motion_ignores_unknown.
Qed.

(** C4: a joint below [root], other than [root], whose limits are all zero
    never reads the frame: the entry under its name can be changed or
    removed without changing the outcome, and its local rotation is that
    of the angles (0, 0, 0).  Its world rotation is
    [parent.matrix . C . E0 . Cinv] with [E0 = euler2mat] of zero angles,
    the identity rotation, and its position is the parent's plus [length]
    times that rotation applied to [direction].  Where the product with
    [E0] leaves [parent.matrix . C] as it is, the world rotation is
    [parent.matrix . C . Cinv]. *)
Theorem set_motion_no_dof (fuel : nat) (sk : gmap string Joint)
    (motion : gmap string (list float64)) (ps ps' : gmap string Pose)
    (j : string) (J : Joint) :
  named sk → parent_linked sk →
  reachable sk "root" j → sk !! j = Some J → j ≠ "root" → no_dof J = true →
  set_motion fuel sk motion "root" ps = Ok ps' →
  (∀ vs, set_motion fuel sk (<[j := vs]> motion) "root" ps = Ok ps')
  ∧ set_motion fuel sk (delete j motion) "root" ps = Ok ps'
  ∧ local_rotation J motion = Ok (zero, zero, zero)
  ∧ ∃ p P Pj, parent J = Some p ∧ ps' !! p = Some P ∧ ps' !! j = Some Pj
      ∧ matrix Pj = dot (dot (dot (matrix P) (C J)) identity_rotation) (Cinv J)
      ∧ coordinate Pj =
          vadd (coordinate P) (scale (length J) (dotv (matrix Pj) (direction J)))
      ∧ (dot (dot (matrix P) (C J)) identity_rotation = dot (matrix P) (C J) →
         matrix Pj = dot (dot (matrix P) (C J)) (Cinv J)
         ∧ coordinate Pj =
             vadd (coordinate P)
                  (scale (length J)
                         (dotv (dot (dot (matrix P) (C J)) (Cinv J)) (direction J)))).
Proof.
  intros Hnamed Hlinked Hreach HJ Hj Hdof Hrun.
  assert (∀ m2, (∀ k, k ≠ j → motion !! k = m2 !! k) →
            set_motion fuel sk m2 "root" ps = Ok ps') as Hext.
  { intros m2 Hm2. rewrite <- Hrun. symmetry.
    apply set_motion_frame_ext. intros k Jk ps0 HJk.
    pose proof (Hnamed _ _ HJk) as Hk. pose proof (Hnamed _ _ HJ) as Hjn.
    apply own_pose_frame_ext.
    - intros Hr. apply Hm2. congruence.
    - intros Hr Hd. apply Hm2. intros Heq. rewrite Hk in Heq. subst k. congruence. }
  split_and!.
  - intros vs. apply Hext. intros k Hk. by rewrite lookup_insert_ne.
  - apply Hext. intros k Hk. by rewrite lookup_delete_ne.
  - by apply local_rotation_no_dof.
  - destruct (settled_equation sk motion ps' j
                (set_motion_settles_below sk motion Hnamed Hlinked _ _ _ _ _ Hrun Hreach Hj))
      as (J' & p & P & Pj & rx & ry & rz & HJ' & Hp & HP & HPj & Hrot & Hm & Hc).
    simplify_eq. rewrite local_rotation_no_dof in Hrot by done. simplify_eq.
    exists p, P, Pj. unfold identity_rotation. split_and!; [done..|].
    intros Hid. rewrite Hc, Hm, Hid. done.
Qed.

Lemma local_rotation_fits (J : Joint) (motion : gmap string (list float64))
    (vs : list float64) :
  motion !! name J = Some vs → active_axes J ≤ List.length vs →
  ∃ rot, local_rotation J motion = Ok rot.
Proof.
  unfold active_axes, local_rotation, take_channel.
  destruct (limits J) as [[lx ly] lz]. intros -> Hlen.
  assert (∀ i, i < List.length vs → ∃ v, vs !! i = Some v) as Hget
    by (intros i Hi; by apply lookup_lt_is_Some).
  destruct (is_zero_row lx), (is_zero_row ly), (is_zero_row lz); simpl in *;
    repeat match goal with
      | |- context [vs !! ?i] =>
          let v := fresh "v" in let E := fresh "E" in
          destruct (Hget i) as [v E]; [lia|]; rewrite E; simpl
      end; eauto.
Qed.

(** Each entry of the array [rotation] is 0.0 or one of the values that
    the joint reads from its entry of the frame. *)
Lemma local_rotation_values (J : Joint) (motion : gmap string (list float64))
    (vs : list float64) (rx ry rz : float64) :
  motion !! name J = Some vs →
  local_rotation J motion = Ok (rx, ry, rz) →
  Forall (λ r, r = zero ∨ r ∈ take (active_axes J) vs) [rx; ry; rz].
Proof.
  unfold active_axes, local_rotation, take_channel.
  destruct (limits J) as [[lx ly] lz]. intros -> H.
  destruct (is_zero_row lx), (is_zero_row ly), (is_zero_row lz);
    destruct vs as [|a [|b [|c vs]]]; simpl in H; try discriminate;
    injection H as <- <- <-; simpl;
    repeat (constructor; [first [by left | right; apply list_elem_of_In; simpl; tauto]|]);
    constructor.
Qed.

(** Progress: on a skeleton without cycle, whose children point back to
    their parent, and for a frame that has the channels, a call that starts
    with the parent of [self] posed returns once the recursion depth covers
    the height under [self]. *)
Lemma set_motion_progress (sk : gmap string Joint) (motion : gmap string (list float64)) :
  children_linked sk → frame_fits sk motion →
  ∀ fuel self ps,
    height_le sk fuel self = true →
    (∀ J, sk !! self = Some J →
       name J = "root" ∨ ∃ p, parent J = Some p ∧ is_Some (ps !! p)) →
    ∃ ps', set_motion fuel sk motion self ps = Ok ps'
      ∧ (∀ k, is_Some (ps !! k) → is_Some (ps' !! k))
      ∧ is_Some (ps' !! self).
Proof.
  intros Hlinked ((x & y & z & a & b & c & Hroot & Hfinite) & Hfits).
  induction fuel as [|f IH]; intros self ps Hh Hpre; [discriminate|].
  simpl in Hh. rewrite set_motion_S.
  destruct (sk !! self) as [J|] eqn:HJ; [|discriminate]. simpl.
  assert (∃ pose, own_pose ps J motion = Ok pose) as [pose Hpose].
  { unfold own_pose. case_decide as Hn.
    - unfold root_pose. rewrite Hroot. simpl.
      apply Forall_cons in Hfinite as [Ha [Hb [Hc _]%Forall_cons]%Forall_cons].
      rewrite euler2mat_call_finite by done. simpl. eauto.
    - destruct (Hpre J eq_refl) as [?|(p & Hp & [P HP])]; [done|].
      assert (∃ rx ry rz, local_rotation J motion = Ok (rx, ry, rz)
                ∧ Forall (λ r, isinf (deg2rad r) = false) [rx; ry; rz])
        as (rx & ry & rz & Hrot & Hangles).
      { destruct (Hfits self J HJ Hn) as [Hdof|(vs & Hvs & Hlen & Hfin)].
        - exists zero, zero, zero. rewrite local_rotation_no_dof by done.
          split; [done|]. repeat constructor; apply deg2rad_zero.
        - destruct (local_rotation_fits J motion vs Hvs Hlen) as [[[rx ry] rz] Hrot].
          exists rx, ry, rz. split; [done|].
          eapply Forall_impl; [by eapply local_rotation_values|].
          intros r [->|Hr]; [apply deg2rad_zero|].
          rewrite Forall_forall in Hfin. by apply Hfin. }
      apply Forall_cons in Hangles as [Ha [Hb [Hc _]%Forall_cons]%Forall_cons].
      unfold joint_pose. rewrite Hrot. simpl. rewrite Hp. simpl. rewrite HP. simpl.
      rewrite euler2mat_call_finite by done. simpl. eauto. }
  rewrite Hpose. simpl.
  set (ps1 := <[self := pose]> ps).
  destruct (for_each_progress
    (λ ps' child, set_motion f sk motion child ps')
    (λ _ b, ∀ k, is_Some (ps1 !! k) → is_Some (b !! k))
    (children J) ps1) as (ps' & Hrun & Hmono); [done| |].
  - intros _ child b0 Hchild Hb.
    destruct (IH child b0) as (b' & Hstep & Hkeep & _).
    { rewrite forallb_forall in Hh. apply Hh. by apply list_elem_of_In. }
    { intros Jc HJc. right. destruct (Hlinked _ _ _ HJ Hchild) as (Jc' & ? & Hp).
      simplify_eq. exists self. split; [done|]. apply Hb. unfold ps1.
      rewrite lookup_insert_eq. eauto. }
    exists b'. split; [done|]. auto.
  - exists ps'. split_and!; [done| |].
    + intros k Hk. apply Hmono. unfold ps1.
      destruct (decide (self = k)) as [->|Hne];
        [rewrite lookup_insert_eq; eauto | by rewrite lookup_insert_ne].
    + apply Hmono. unfold ps1. rewrite lookup_insert_eq. eauto.
Qed.

(** Applying a frame from [root] returns. *)
Lemma set_motion_returns (sk : gmap string Joint) (motion : gmap string (list float64))
    (fuel : nat) (ps : gmap string Pose) :
  named sk → children_linked sk → frame_fits sk motion →
  height_le sk fuel "root" = true →
  ∃ ps', set_motion fuel sk motion "root" ps = Ok ps'.
Proof.
  intros Hnamed Hlinked Hfits Hh.
  destruct (set_motion_progress sk motion Hlinked Hfits fuel "root" ps Hh)
    as (ps' & Hrun & _); [|eauto].
  intros J HJ. left. eauto.
Qed.

End Kinematics.
(** ** Channels and axes *)

Section Channels.
Context {num : Numerics}.

Lemma is_zero_row_zero : is_zero_row (zero, zero) = true.
Proof. unfold is_zero_row. simpl. by rewrite float_eqb_zero. Qed.

(** The DOF lists in x, y, z order. *)
Lemma sublist_xyz (dof : list string) :
  sublist dof ["rx"; "ry"; "rz"] →
  dof = [] ∨ dof = ["rx"] ∨ dof = ["ry"] ∨ dof = ["rz"]
  ∨ dof = ["rx"; "ry"] ∨ dof = ["rx"; "rz"] ∨ dof = ["ry"; "rz"]
  ∨ dof = ["rx"; "ry"; "rz"].
Proof.
  intros H.
  repeat match goal with
    | H : sublist _ (_ :: _) |- _ =>
        apply sublist_cons_r in H as [H|(? & -> & H)]
    | H : sublist _ [] |- _ => apply sublist_nil_r in H as ->
    end; tauto.
Qed.

(** C2 (amended): when the DOF list of a joint is in x, y, z order (a
    sublist of [rx; ry; rz]) and comes with one non-zero limits row per
    tag, [set_motion] puts the k-th channel value into the slot of the
    k-th tag and leaves the other slots at zero, and it reads as many
    values as there are tags: the values beyond them are not looked at.
    In general the values are taken, in order, by the axes x, y, z whose
    limits row is not zero, whatever the order of the tags. *)
Theorem local_rotation_by_tag (nm : string) (dir : list float64) (len : float64)
    (axis : list float64) (dof : list string) (lims : list (list float64))
    (J : Joint) (motion : gmap string (list float64)) (vs : list float64) :
  sublist dof ["rx"; "ry"; "rz"] →
  List.length lims = List.length dof →
  Forall (λ lm, ∃ row, as_row lm = Ok row ∧ is_zero_row row = false) lims →
  Joint_init nm dir len axis dof lims = Ok J →
  motion !! nm = Some vs → List.length dof ≤ List.length vs →
  local_rotation J motion = Ok (rotation_by_tag dof vs (zero, zero, zero))
  ∧ local_rotation J (<[nm := take (List.length dof) vs]> motion)
    = Ok (rotation_by_tag dof vs (zero, zero, zero)).
Proof.
  intros Hdof Hlen Hrows Hinit Hvs Hfit.
  unfold Joint_init in Hinit.
  apply bind_Ok_inv in Hinit as (d & _ & Hinit).
  apply bind_Ok_inv in Hinit as (c & _ & Hinit).
  apply bind_Ok_inv in Hinit as (ci & _ & Hinit).
  apply bind_Ok_inv in Hinit as (ls & Hls & Hinit).
  injection Hinit as <-.
  pose proof is_zero_row_zero as Hz.
  unfold local_rotation, take_channel. cbn [limits name].
  rewrite lookup_insert_eq, Hvs.
  apply sublist_xyz in Hdof
    as [->|[->|[->|[->|[->|[->|[->| ->]]]]]]];
    repeat (destruct lims as [|? lims]; try discriminate Hlen);
    repeat match goal with
      | H : Forall _ (_ :: _) |- _ =>
          let row := fresh "row" in let Hr := fresh "Hr" in let Hnz := fresh "Hnz" in
          apply Forall_cons in H as [(row & Hr & Hnz) H]
      end;
    cbn [zip zip_with fill_limits] in Hls;
    repeat match goal with
      | H : as_row _ = Ok _ |- _ => rewrite H in Hls; clear H
      end;
    simpl in Hls; injection Hls as <-;
    repeat match goal with
      | H : is_zero_row _ = _ |- _ => rewrite !H
      end;
    repeat (destruct vs as [|? vs]; [simpl in Hfit; lia|]); done.
Qed.

End Channels.

(** ** Frame drivers *)

Section Drivers.
Context {num : Numerics}.

(** A loop over [range(len(l))] that starts by fetching [l[i]] is the loop
    over [l]. *)
Lemma for_each_indexed {A B : Type} (body : B → A → result B) (l : list A) (acc : B) :
  for_each (λ b i, x ← lookup_or IndexError (l !! i); body b x) acc (seq 0 (List.length l))
  = for_each body acc l.
Proof.
  enough (∀ rest seen b, l = seen ++ rest →
            for_each (λ b i, x ← lookup_or IndexError (l !! i); body b x) b
                     (seq (List.length seen) (List.length rest))
            = for_each body b rest) as Hgen by (apply (Hgen l [] acc); done).
  induction rest as [|x rest IH]; intros seen b Hl; [done|].
  cbn [List.length seq for_each].
  assert (l !! List.length seen = Some x) as ->.
  { rewrite Hl. by rewrite list_lookup_middle. }
  simpl. destruct (body b x) as [b'|]; [|done].
  specialize (IH (seen ++ [x]) b'). rewrite length_app in IH. simpl in IH.
  rewrite Nat.add_1_r in IH. apply IH. by rewrite <- app_assoc.
Qed.

(** The dashboard's driver shows the frames it is given, in order. *)
Lemma create_animation_shows (fuel : nat) (sk : gmap string Joint)
    (motions : list (gmap string (list float64))) (frames : list nat)
    (ps : gmap string Pose) :
  create_animation fuel sk motions frames ps = show_frames fuel sk motions frames ps.
Proof.
  unfold create_animation, show_frames, FuncAnimation.
  rewrite <- (for_each_indexed
    (λ (acc : gmap string Pose * list scene) f,
       '(ps', sc) ← update_3d_scene fuel sk motions f acc.1; Ok (ps', acc.2 ++ [sc]))
    frames (ps, [])).
  apply for_each_ext. intros b i _.
  by destruct (frames !! i).
Qed.

(** [create_3d_animation] hands the position in [frames_to_show], not the
    frame index at that position, to [update_3d_scene]: it shows the
    frames 0, 1, ... up to the length of the range. *)
Lemma create_3d_animation_shows (fuel : nat) (sk : gmap string Joint)
    (motions : list (gmap string (list float64))) (start_frame : nat)
    (end_frame : option nat) (ps : gmap string Pose) :
  create_3d_animation fuel sk motions start_frame end_frame ps
  = show_frames fuel sk motions
      (range 0 (clamp_end motions end_frame - start_frame)) ps.
Proof.
  unfold create_3d_animation, show_frames, FuncAnimation, range.
  by rewrite length_seq, Nat.sub_0_r.
Qed.

End Drivers.

(** ** Checking the links of a skeleton *)

Section Links.
Context {num : Numerics}.

Lemma linkedb_sound (sk : gmap string Joint) : linkedb sk = true → linked sk.
Proof.
  unfold linkedb. rewrite forallb_forall. intros Hall.
  assert (∀ k J, sk !! k = Some J →
            name J = k
            ∧ (∀ c, c ∈ children J → (sk !! c) ≫= parent = Some k)
            ∧ match parent J with
              | None => True
              | Some p => match sk !! p with
                          | Some P => k ∈ children P
                          | None => False
                          end
              end) as Hok.
  { intros k J HJ. apply elem_of_map_to_list, list_elem_of_In in HJ.
    specialize (Hall _ HJ). simpl in Hall.
    apply andb_prop in Hall as [[Hn Hc]%andb_prop Hp].
    split_and!.
    - by apply bool_decide_eq_true in Hn.
    - intros c Hin. rewrite forallb_forall in Hc.
      apply list_elem_of_In in Hin. specialize (Hc c Hin).
      by apply bool_decide_eq_true in Hc.
    - destruct (parent J) as [p|]; [|done]. destruct (sk !! p); [|done].
      by apply bool_decide_eq_true in Hp. }
  split_and!.
  - intros k J HJ. by apply Hok.
  - intros p P c HP Hc. destruct (Hok p P HP) as (_ & Hch & _).
    specialize (Hch c Hc). destruct (sk !! c) as [Cj|]; [|done]. eauto.
  - intros c Cj p HC Hp. destruct (Hok c Cj HC) as (_ & _ & Hpar).
    rewrite Hp in Hpar. destruct (sk !! p) as [P|]; [|done]. eauto.
Qed.

(** A joint as [__init__] leaves it: named, without parent or children. *)
Lemma Joint_init_fresh (nm : string) (dir : list float64) (len : float64)
    (axis : list float64) (dof : list string) (lims : list (list float64)) (J : Joint) :
  Joint_init nm dir len axis dof lims = Ok J →
  name J = nm ∧ parent J = None ∧ children J = [].
Proof.
  unfold Joint_init. intros H.
  apply bind_Ok_inv in H as (d & _ & H).
  apply bind_Ok_inv in H as (c & _ & H).
  apply bind_Ok_inv in H as (ci & _ & H).
  apply bind_Ok_inv in H as (ls & _ & H).
  by injection H as <-.
Qed.

(** The dict of [parse_asf] before the hierarchy is read. *)
Lemma unattached_linked (sk : gmap string Joint) :
  named sk → (∀ k J, sk !! k = Some J → parent J = None ∧ children J = []) →
  linked sk.
Proof.
  intros Hn Hfresh. split_and!; [done| |].
  - intros p P c HP Hc. destruct (Hfresh p P HP) as [_ Hch].
    rewrite Hch in Hc. by apply elem_of_nil in Hc.
  - intros c Cj p HC Hp. destruct (Hfresh c Cj HC) as [Hpar _]. congruence.
Qed.

(** What [attach] does to each object. *)
Lemma attach_lookup (sk sk' : gmap string Joint) (p c : string) :
  attach sk p c = Ok sk' →
  is_Some (sk !! p) ∧ is_Some (sk !! c)
  ∧ ∀ k, sk' !! k =
      (λ J, (if decide (k = c) then set_parent p else id)
              ((if decide (k = p) then add_child c else id) J)) <$> sk !! k.
Proof.
  unfold attach. intros H.
  apply bind_Ok_inv in H as (P & HP%lookup_or_Ok_inv & H).
  apply bind_Ok_inv in H as (C0 & HC%lookup_or_Ok_inv & H).
  apply bind_Ok_inv in H as (Cj & HCj%lookup_or_Ok_inv & H).
  injection H as <-. split_and!; [eauto..|]. intros k.
  destruct (decide (k = c)) as [->|Hkc].
  - rewrite lookup_insert_eq. destruct (decide (c = p)) as [->|Hcp].
    + rewrite lookup_insert_eq in HCj. simplify_eq. by rewrite HP.
    + rewrite lookup_insert_ne in HCj by done. by rewrite HCj.
  - rewrite lookup_insert_ne by done. destruct (decide (k = p)) as [->|Hkp].
    + rewrite lookup_insert_eq. by rewrite HP.
    + rewrite lookup_insert_ne by done. by destruct (sk !! k).
Qed.

(** [attach] keeps the objects under their names and every parent
    reference matched by an entry in the parent's list. *)
Lemma attach_named (sk sk' : gmap string Joint) (p c : string) :
  named sk → attach sk p c = Ok sk' → named sk'.
Proof.
  intros Hn (_ & _ & Hk)%attach_lookup k J HJ. rewrite Hk in HJ.
  destruct (sk !! k) as [J0|] eqn:HJ0; [|done]. simpl in HJ. simplify_eq.
  rewrite <- (Hn k J0 HJ0). by repeat case_decide.
Qed.

Lemma attach_parent_linked (sk sk' : gmap string Joint) (p c : string) :
  parent_linked sk → attach sk p c = Ok sk' → parent_linked sk'.
Proof.
  intros Hl (Hp & Hc & Hk)%attach_lookup x X q HX Hq. rewrite Hk in HX.
  destruct (sk !! x) as [X0|] eqn:HX0; [|done]. simpl in HX. simplify_eq.
  assert (∀ y Y0, sk !! y = Some Y0 → x ∈ children Y0 →
            ∃ Y, sk' !! y = Some Y ∧ x ∈ children Y) as Hmono.
  { intros y Y0 HY0 Hin. rewrite Hk, HY0. simpl. eexists. split; [done|].
    repeat case_decide; simpl; rewrite ?elem_of_app; auto. }
  destruct (decide (x = c)) as [->|Hxc].
  - simpl in Hq. assert (q = p) as -> by (by repeat case_decide; simplify_eq).
    destruct Hp as [P HP]. rewrite Hk, HP. simpl. eexists. split; [done|].
    repeat case_decide; try done; simpl; rewrite elem_of_app, list_elem_of_singleton; auto.
  - assert (parent X0 = Some q) as Hq0 by (by repeat case_decide).
    destruct (Hl x X0 q HX0 Hq0) as (Q0 & HQ0 & Hin). eauto.
Qed.

(** Attaching a joint that has no parent yet keeps the children lists
    matched by parent references. *)
Lemma attach_children_linked (sk sk' : gmap string Joint) (p c : string) :
  children_linked sk → (∀ Cj, sk !! c = Some Cj → parent Cj = None) →
  attach sk p c = Ok sk' → children_linked sk'.
Proof.
  intros Hl Hfresh (Hp & [C0 HC0] & Hk)%attach_lookup q Q x HQ Hx. rewrite Hk in HQ.
  destruct (sk !! q) as [Q0|] eqn:HQ0; [|done]. simpl in HQ. simplify_eq.
  assert (x ∈ children Q0 ∨ (q = p ∧ x = c)) as [Hin|[-> ->]].
  { destruct (decide (q = c)), (decide (q = p)); simpl in Hx;
      try apply elem_of_app in Hx as [?|?%list_elem_of_singleton]; auto. }
  - destruct (Hl q Q0 x HQ0 Hin) as (X0 & HX0 & HpX).
    rewrite Hk, HX0. simpl. eexists. split; [done|].
    destruct (decide (x = c)) as [->|_].
    + simplify_eq. rewrite (Hfresh _ HC0) in HpX. done.
    + by destruct (decide (x = p)).
  - rewrite Hk, HC0. simpl. eexists. split; [done|].
    rewrite decide_True by done. by destruct (decide (c = p)).
Qed.

End Links.

(** ** The statements on the example data *)

Section OnExamples.
Import RightAngle Examples.
#[local] Existing Instance numerics.

Lemma reachable_direct {num : Numerics} (sk : gmap string Joint) (a c : string) (J : Joint) :
  sk !! a = Some J → c ∈ children J → reachable sk a c.
Proof. intros HJ Hc. eapply reachable_child; [constructor|done..]. Qed.

Lemma two_joints_linked : linked two_joints.
Proof. apply linkedb_sound. vm_compute. reflexivity. Qed.

Lemma rigid_pair_linked : linked rigid_pair.
Proof. apply linkedb_sound. vm_compute. reflexivity. Qed.

Lemma two_joints_reach_j1 : reachable two_joints "root" "j1".
Proof.
  eapply reachable_direct; [reflexivity|].
  apply list_elem_of_In. vm_compute. left. reflexivity.
Qed.

Lemma rigid_pair_reach_tip : reachable rigid_pair "root" "tip".
Proof.
  eapply reachable_direct; [reflexivity|].
  apply list_elem_of_In. vm_compute. left. reflexivity.
Qed.

Lemma right_angle_identity (A : mat3) : mmul A (euler (0 / 90) (0 / 90) (0 / 90)) = A.
Proof.
  destruct A as [[[[a b] c] [[d e] f]] [[g h] i]].
  change (euler (0 / 90) (0 / 90) (0 / 90)) with ((1, 0, 0), (0, 1, 0), (0, 0, 1))%Z.
  unfold mmul, mvec. repeat f_equal; lia.
Qed.

(** C1 on the scenario of the specification: [j1] after a quarter turn
    that follows another frame. *)
Lemma set_motion_child_position_witness :
  ∃ J p P Pj rx ry rz,
    two_joints !! "j1" = Some J ∧ parent J = Some p
    ∧ two_joints_posed !! p = Some P ∧ two_joints_posed !! "j1" = Some Pj
    ∧ local_rotation J quarter_turn = Ok (rx, ry, rz)
    ∧ matrix Pj = dot (dot (dot (matrix P) (C J))
                           (euler2mat (deg2rad rx) (deg2rad ry) (deg2rad rz)))
                      (Cinv J)
    ∧ coordinate Pj =
        vadd (coordinate P) (scale (length J) (dotv (matrix Pj) (direction J))).
Proof.
  destruct two_joints_linked as (Hn & _ & Hp).
  apply (set_motion_child_position (num := numerics) 2 two_joints
           (take 1 three_frames) quarter_turn ∅ two_joints_posed "j1");
    [exact Hn | exact Hp | reflexivity | exact two_joints_reach_j1 | discriminate].
Defined.

(** C2 (counterexample): a joint that declares [rz] before [rx], with the
    values 10 and 20: the specification's placement puts 10 in the z slot
    and 20 in the x slot, [set_motion] puts 10 in the x slot and 20 in
    the z slot. *)
Lemma local_rotation_out_of_order :
  ∃ J, Joint_init "j" [0; 1; 0]%Z 10%Z [0; 0; 0]%Z swapped_dof swapped_limits = Ok J
    ∧ rotation_by_tag swapped_dof swapped_values (0, 0, 0)%Z = (20, 0, 10)%Z
    ∧ local_rotation J {["j" := swapped_values]} = Ok (10, 0, 20)%Z
    ∧ local_rotation J {["j" := swapped_values]}
      ≠ Ok (rotation_by_tag swapped_dof swapped_values (0, 0, 0)%Z).
Proof.
  eexists. split; [reflexivity|].
  split; [reflexivity|].
  split; [reflexivity|].
  vm_compute. discriminate.
Qed.

(** C2 (amended) on a joint that declares [rx] and [rz]. *)
Lemma local_rotation_by_tag_witness :
  ∃ J, Joint_init "j1" [0; 1; 0]%Z 10%Z [0; 0; 0]%Z ["rx"; "rz"] [[-1; 1]; [-2; 2]]%Z = Ok J
    ∧ local_rotation J {["j1" := [10; 20; 30]%Z]}
      = Ok (rotation_by_tag ["rx"; "rz"] [10; 20; 30]%Z (0, 0, 0)%Z)
    ∧ local_rotation J (<["j1" := take 2 [10; 20; 30]%Z]> {["j1" := [10; 20; 30]%Z]})
      = Ok (rotation_by_tag ["rx"; "rz"] [10; 20; 30]%Z (0, 0, 0)%Z).
Proof.
  eexists. split; [reflexivity|].
  apply (local_rotation_by_tag (num := numerics) "j1" [0; 1; 0]%Z 10%Z [0; 0; 0]%Z ["rx"; "rz"]
           [[-1; 1]; [-2; 2]]%Z _ {["j1" := [10; 20; 30]%Z]} [10; 20; 30]%Z).
  - apply sublist_skip, sublist_cons, sublist_skip, sublist_nil.
  - reflexivity.
  - repeat constructor; eexists; (split; [reflexivity | reflexivity]).
  - reflexivity.
  - reflexivity.
  - simpl. lia.
Defined.

(** C3 on [rigid_pair]. *)
Lemma set_motion_root_position_witness :
  ∃ x y z rest P,
    rigid_frame !! "root" = Some (x :: y :: z :: rest)
    ∧ rigid_pair_posed !! "root" = Some P ∧ coordinate P = (x, y, z).
Proof.
  apply (set_motion_root_position (num := numerics) 2 rigid_pair rigid_frame ∅ rigid_pair_posed);
    [exact (proj1 rigid_pair_linked) | reflexivity].
Defined.

(** C4 on [tip], which animates no axis; the rotation of zero angles is
    the identity matrix here. *)
Lemma set_motion_no_dof_witness :
  ∃ J, rigid_pair !! "tip" = Some J
    ∧ (∀ vs, set_motion 2 rigid_pair (<["tip" := vs]> rigid_frame) "root" ∅
             = Ok rigid_pair_posed)
    ∧ set_motion 2 rigid_pair (delete "tip" rigid_frame) "root" ∅ = Ok rigid_pair_posed
    ∧ local_rotation J rigid_frame = Ok (0, 0, 0)%Z
    ∧ ∃ p P Pj, parent J = Some p ∧ rigid_pair_posed !! p = Some P
        ∧ rigid_pair_posed !! "tip" = Some Pj
        ∧ matrix Pj = dot (dot (dot (matrix P) (C J)) identity_rotation) (Cinv J)
        ∧ coordinate Pj =
            vadd (coordinate P) (scale (length J) (dotv (matrix Pj) (direction J)))
        ∧ matrix Pj = dot (dot (matrix P) (C J)) (Cinv J).
Proof.
  destruct rigid_pair_linked as (Hn & _ & Hp).
  eexists. split; [reflexivity|].
  destruct (set_motion_no_dof (num := numerics) 2 rigid_pair rigid_frame ∅ rigid_pair_posed
              "tip" _ Hn Hp rigid_pair_reach_tip eq_refl ltac:(discriminate) eq_refl eq_refl)
    as (Hins & Hdel & Hrot & p & P & Pj & Hpar & HP & HPj & Hm & Hc & Hid).
  split; [exact Hins|]. split; [exact Hdel|]. split; [exact Hrot|].
  exists p, P, Pj. repeat (split; [assumption|]).
  exact (proj1 (Hid (right_angle_identity _))).
Defined.

(** C6 on a fresh skeleton and a copy posed by another frame. *)
Lemma set_motion_deterministic_witness :
  ∃ ps2', set_motion 2 two_joints quarter_turn "root" two_joints_stale = Ok ps2'
    ∧ ∀ j, reachable two_joints "root" j → two_joints_posed !! j = ps2' !! j.
Proof.
  destruct two_joints_linked as (Hn & Hc & _).
  apply (set_motion_deterministic (num := numerics) 2 two_joints quarter_turn ∅ two_joints_stale
           two_joints_posed);
    [exact Hn | exact Hc | reflexivity].
Defined.

(** C7 on a frame without the entry of [j1]. *)
Lemma set_motion_missing_channel_witness :
  (∃ e, set_motion 2 two_joints root_only "root" ∅ = Err e)
  ∧ set_motion 3 two_joints root_only "j1" ∅ = Err KeyError.
Proof.
  eapply (set_motion_missing_channel (num := numerics) 2 two_joints root_only ∅ "j1").
  - exact two_joints_reach_j1.
  - reflexivity.
  - discriminate.
  - reflexivity.
  - reflexivity.
Defined.

(** C8 (counterexample): the delimiter of frame 2 directly follows the
    delimiter of frame 1; the parser returns the one frame that has
    channels and raises nothing. *)
Lemma zero_channel_frame_accepted :
  zero_channel_file = [":DEGREES"; "1"; "2"; "root 0 0 0 0 0 0"; "j1 90"]
  ∧ parse_amc zero_channel_file = Ok [quarter_turn].
Proof. split; [reflexivity | reflexivity]. Qed.

(** C8 (amended) on the file of the counterexample. *)
Lemma parse_amc_skips_zero_channel_frame_witness :
  parse_amc ([":DEGREES"] ++ "1" :: "2" :: ["root 0 0 0 0 0 0"; "j1 90"])
  = parse_amc ([":DEGREES"] ++ "2" :: ["root 0 0 0 0 0 0"; "j1 90"]).
Proof.
  apply (parse_amc_skips_zero_channel_frame (num := numerics) [":DEGREES"] ["root 0 0 0 0 0 0"; "j1 90"]
           "1" "2" "1" "2" [] []); reflexivity.
Defined.

(** C9 (counterexample): the file has a channel line for [ghost], which
    is no joint of the skeleton; it parses, and applying its frame
    returns the poses of the frame without that line. *)
Lemma unknown_joint_frame_applies :
  parse_amc ghost_file = Ok [ghost_frame]
  ∧ ghost_frame !! "ghost" = Some [45]%Z
  ∧ two_joints !! "ghost" = None
  ∧ set_motion 2 two_joints ghost_frame "root" ∅ = Ok two_joints_posed.
Proof. repeat split; reflexivity. Qed.

(** C9 (amended) on the line and the frame of the counterexample. *)
Lemma unknown_joint_is_ignored_witness :
  amc_line ([], quarter_turn) "ghost 45" = Ok ([], <["ghost" := [45]%Z]> quarter_turn)
  ∧ set_motion 2 two_joints ghost_frame "root" ∅
    = set_motion 2 two_joints (delete "ghost" ghost_frame) "root" ∅.
Proof.
  apply (unknown_joint_is_ignored (num := numerics) two_joints [] quarter_turn "ghost 45" "ghost" ["45"]
           [45]%Z ghost_frame 2 ∅);
    [exact (proj1 two_joints_linked) | reflexivity | reflexivity | reflexivity
    | reflexivity | reflexivity].
Defined.

(** C10 on a file with a zero-channel frame. *)
Lemma parse_amc_frames_nonempty_witness :
  Forall (λ fr : gmap string (list Z), fr ≠ ∅) [quarter_turn]
  ∧ amc_line ([quarter_turn], ∅) "2" = Ok ([quarter_turn], ∅).
Proof.
  apply (parse_amc_frames_nonempty (num := numerics) zero_channel_file [quarter_turn] [quarter_turn]
           "2" "2" []); [reflexivity | reflexivity | reflexivity].
Defined.

(** C5 (the code at a failing input): asked for the frames 1 and 2 of
    three, [create_3d_animation] shows the frames 0 and 1; the dashboard's
    [create_animation] shows the frames 1 and 2. *)
Theorem create_3d_animation_drops_start_frame :
  shown (create_3d_animation 2 two_joints three_frames 1 (Some 3) ∅)
  = shown (show_frames 2 two_joints three_frames [0; 1] ∅)
  ∧ shown (create_3d_animation 2 two_joints three_frames 1 (Some 3) ∅)
    = Some [[("root", (0, 0, 0)); ("j1", (0, 0, 10))];
            [("root", (0, 0, 0)); ("j1", (0, -10, 0))]]%Z
  ∧ shown (show_frames 2 two_joints three_frames [1; 2] ∅)
    = Some [[("root", (0, 0, 0)); ("j1", (0, -10, 0))];
            [("root", (0, 0, 0)); ("j1", (0, 0, -10))]]%Z
  ∧ shown (create_animation 2 two_joints three_frames
             (dashboard_frames three_frames 1 (Some 3)) ∅)
    = shown (show_frames 2 two_joints three_frames [1; 2] ∅).
Proof. repeat split; reflexivity. Qed.

End OnExamples.

(** * Further properties *)

(** ** More on loops *)

Section MoreLoops.
Context {A B : Type}.

(** The loop rule with the position of the element in the list. *)
Lemma for_each_invariant_at (body : B → A → result B) (I : list A → B → Prop)
    (l : list A) (acc acc' : B) :
  I [] acc →
  (∀ seen x rest b b', l = seen ++ x :: rest → I seen b → body b x = Ok b' →
     I (seen ++ [x]) b') →
  for_each body acc l = Ok acc' → I l acc'.
Proof.
  intros H0 Hstep.
  enough (∀ rest seen b, l = seen ++ rest → I seen b →
            for_each body b rest = Ok acc' → I l acc') as Hgen
    by (apply (Hgen l [] acc); auto).
  induction rest as [|x rest IH]; intros seen b Hl Hd Hrun; simpl in Hrun.
  - rewrite app_nil_r in Hl. congruence.
  - destruct (body b x) as [b'|] eqn:Hb; [|discriminate].
    apply (IH (seen ++ [x]) b'); [by rewrite <- app_assoc | | exact Hrun].
    by apply (Hstep seen x rest b b').
Qed.

(** A loop raises only what its body raises. *)
Lemma for_each_raises_only (body : B → A → result B) (E : error → Prop)
    (l : list A) (acc : B) (e : error) :
  (∀ b x e, x ∈ l → body b x = Err e → E e) →
  for_each body acc l = Err e → E e.
Proof.
  revert acc. induction l as [|x l IH]; intros acc Hbody Hrun; [discriminate|].
  simpl in Hrun. destruct (body acc x) as [b'|e'] eqn:Hb.
  - apply (IH b'); [|exact Hrun]. intros b y e0 Hy. apply Hbody. by right.
  - injection Hrun as <-. apply (Hbody acc x); [by left | exact Hb].
Qed.

End MoreLoops.

(** ** The skeleton parser *)

Section SkeletonParserFacts.
Context {num : Numerics}.

Lemma keyed_split (key raw k : string) (args : list string) :
  split raw = k :: args → keyed key raw = bool_decide (k = key).
Proof. intros H. unfold keyed. by rewrite H. Qed.

Lemma handle_unhandled (key : string) (args : list string) (joint : block) :
  key ∉ handled → handle key args joint = Ok joint.
Proof.
  intros Hk. unfold handle.
  repeat (rewrite decide_False;
          [|intros ->; apply Hk; unfold handled; set_solver]).
  done.
Qed.

Lemma handle_limits_length (key : string) (args : list string) (joint joint' : block) :
  handle key args joint = Ok joint' →
  List.length (default [] (b_limits joint')) =
    List.length (default [] (b_limits joint)) + (if decide (key = "limits") then 1 else 0).
Proof.
  unfold handle. intros H.
  repeat (case_decide; [subst; try discriminate;
    repeat (apply bind_Ok_inv in H as (? & _ & H)); injection H as <-; simpl;
    rewrite ?length_app; simpl; lia|]).
  injection H as <-. lia.
Qed.

Lemma parse_joint_block_from_shift (lines : list string) (idx : nat) (joint : block) :
  parse_joint_block_from lines (S idx) joint =
    match parse_joint_block_from lines idx joint with
    | Ok (b, i) => Ok (b, S i)
    | Err e => Err e
    end.
Proof.
  revert idx joint. induction lines as [|raw lines IH]; intros idx joint; [done|].
  simpl. destruct (split raw) as [|key args]; [done|].
  case_decide; [done|]. destruct (handle key args joint) as [joint'|]; [|done].
  simpl. apply IH.
Qed.

Lemma parse_joint_block_from_ignores (pre post : list string) (raw key : string)
    (args : list string) (idx : nat) (joint : block) :
  Forall (λ l, keyed "end" l = false) pre →
  split raw = key :: args → key ≠ "end" → key ∉ handled →
  parse_joint_block_from (pre ++ raw :: post) idx joint =
    match parse_joint_block_from (pre ++ post) idx joint with
    | Ok (b, i) => Ok (b, S i)
    | Err e => Err e
    end.
Proof.
  intros Hpre Hs Hend Hk. revert idx joint.
  induction Hpre as [|l pre Hl Hpre IH]; intros idx joint.
  - simpl. rewrite Hs, decide_False by done.
    rewrite handle_unhandled by done. simpl. apply parse_joint_block_from_shift.
  - simpl. destruct (split l) as [|k a] eqn:Hsl; [done|].
    rewrite (keyed_split _ _ _ _ Hsl) in Hl. apply bool_decide_eq_false in Hl.
    rewrite !decide_False by done. destruct (handle k a joint) as [joint'|]; simpl; [|done].
    apply IH.
Qed.

(** The shape of a block that [parse_joint_block_from] accepts. *)
Lemma parse_joint_block_from_shape (lines : list string) (idx i : nat) (joint b : block) :
  parse_joint_block_from lines idx joint = Ok (b, i) →
  ∃ body endl rest,
    lines = body ++ endl :: rest ∧ i = idx + List.length body + 1
    ∧ keyed "end" endl = true
    ∧ Forall (λ raw, keyed "end" raw = false) body
    ∧ List.length (default [] (b_limits b)) =
        List.length (default [] (b_limits joint))
        + List.length (filter (λ raw, keyed "limits" raw = true) body).
Proof.
  revert idx joint. induction lines as [|raw lines IH]; intros idx joint H; [discriminate|].
  simpl in H. destruct (split raw) as [|key args] eqn:Hs; [discriminate|].
  case_decide as Hend.
  - injection H as <- <-. exists [], raw, lines. split_and!; simpl; try done; try lia.
    rewrite (keyed_split _ _ _ _ Hs). by apply bool_decide_eq_true.
  - apply bind_Ok_inv in H as (joint' & Hh & H).
    destruct (IH _ _ H) as (body & endl & rest & -> & -> & He & Hb & Hl).
    exists (raw :: body), endl, rest. split_and!; simpl; try done; try lia.
    + constructor; [|done]. rewrite (keyed_split _ _ _ _ Hs).
      by apply bool_decide_eq_false.
    + rewrite Hl, (handle_limits_length _ _ _ _ Hh).
      rewrite filter_cons, (keyed_split _ _ _ _ Hs).
      destruct (decide (key = "limits")) as [->|Hk].
      * rewrite decide_True by (by apply bool_decide_eq_true). simpl. lia.
      * rewrite decide_False; [lia|].
        intros Ht. by apply bool_decide_eq_true in Ht.
Qed.

(** X1: a line inside a bone block (no line that starts with [end] comes
    before it) whose first token is neither [end] nor one of the six field
    names changes nothing but the index returned: the block parses as it
    does without that line.  In particular the limits rows that continue
    on lines of their own are not read. *)
Theorem parse_joint_block_ignores_line (before pre post : list string) (raw key : string)
    (args : list string) :
  Forall (λ l, keyed "end" l = false) pre →
  split raw = key :: args → key ≠ "end" → key ∉ handled →
  parse_joint_block (before ++ pre ++ raw :: post) (List.length before) =
    match parse_joint_block (before ++ pre ++ post) (List.length before) with
    | Ok (b, i) => Ok (b, S i)
    | Err e => Err e
    end.
Proof.
  intros Hpre Hs Hend Hk. unfold parse_joint_block.
  rewrite !drop_app_length. by apply (parse_joint_block_from_ignores _ _ _ key args).
Qed.

(** X2: when [parse_joint_block] returns, the block runs from [start_idx]
    to the first line that starts with [end], the index returned is the
    one after that line, and the dict has one limits row per line of the
    block that starts with [limits]. *)
Theorem parse_joint_block_shape (content : list string) (start_idx idx : nat)
    (joint_data : block) :
  parse_joint_block content start_idx = Ok (joint_data, idx) →
  ∃ before body endl rest,
    content = before ++ body ++ endl :: rest
    ∧ List.length before = start_idx
    ∧ idx = start_idx + List.length body + 1
    ∧ keyed "end" endl = true
    ∧ Forall (λ raw, keyed "end" raw = false) body
    ∧ List.length (default [] (b_limits joint_data)) =
        List.length (filter (λ raw, keyed "limits" raw = true) body).
Proof.
  unfold parse_joint_block. intros H.
  destruct (parse_joint_block_from_shape _ _ _ _ _ H)
    as (body & endl & rest & Hd & -> & He & Hb & Hl).
  exists (take start_idx content), body, endl, rest.
  assert (start_idx < List.length content) as Hlt.
  { destruct (decide (start_idx < List.length content)); [done|].
    rewrite drop_ge in Hd by lia. by destruct body. }
  split_and!; try done.
  - by rewrite <- Hd, take_drop.
  - rewrite length_take. lia.
Qed.

Lemma active_axes_rows (J : Joint) : active_axes J = active_rows (limits J).
Proof. unfold active_axes, active_rows. by destruct (limits J) as [[lx ly] lz]. Qed.

Lemma fill_limits_rows (pairs : list (list float64 * string)) (ls ls' : lim * lim * lim) :
  fill_limits pairs ls = Ok ls' → active_rows ls' ≤ active_rows ls + List.length pairs.
Proof.
  revert ls. induction pairs as [|[lm nm] pairs IH]; intros ls H; simpl in H.
  - injection H as <-. lia.
  - apply bind_Ok_inv in H as (row & _ & H). destruct ls as [[l0 l1] l2].
    apply IH in H. simpl. etrans; [exact H|]. clear.
    unfold active_rows. repeat case_decide; simpl;
      destruct (is_zero_row row), (is_zero_row l0), (is_zero_row l1), (is_zero_row l2); lia.
Qed.

Lemma Joint_init_rows (nm : string) (dir : list float64) (len : float64)
    (axis : list float64) (dof : list string) (lims : list (list float64)) (J : Joint) :
  Joint_init nm dir len axis dof lims = Ok J →
  active_axes J ≤ List.length lims `min` List.length dof.
Proof.
  unfold Joint_init. intros H.
  apply bind_Ok_inv in H as (d & _ & H).
  apply bind_Ok_inv in H as (c & _ & H).
  apply bind_Ok_inv in H as (ci & _ & H).
  apply bind_Ok_inv in H as (ls & Hls & H). injection H as <-.
  rewrite active_axes_rows. cbn [limits].
  apply fill_limits_rows in Hls. rewrite length_zip in Hls.
  unfold active_rows in Hls at 2. simpl in Hls. rewrite is_zero_row_zero in Hls. lia.
Qed.

(** X3: a joint animates at most as many axes as its DOF list has tags and
    as it was given limits rows: a tag without a limits row is never
    animated, whatever the frame holds for it. *)
Theorem Joint_init_active_axes (nm : string) (dir : list float64) (len : float64)
    (axis : list float64) (dof : list string) (lims : list (list float64)) (J : Joint) :
  Joint_init nm dir len axis dof lims = Ok J →
  active_axes J ≤ List.length dof ∧ active_axes J ≤ List.length lims.
Proof. intros H%Joint_init_rows. lia. Qed.

Lemma build_joint_inv (joint_data : block) (J : Joint) :
  build_joint joint_data = Ok J →
  ∃ nm d len a, b_name joint_data = Some nm ∧
    Joint_init nm d len a (default [] (b_dof joint_data))
               (default [] (b_limits joint_data)) = Ok J.
Proof.
  unfold build_joint. intros H.
  apply bind_Ok_inv in H as (nm & Hn%lookup_or_Ok_inv & H).
  apply bind_Ok_inv in H as (d & _ & H).
  apply bind_Ok_inv in H as (len & _ & H).
  apply bind_Ok_inv in H as (a & _ & H). eauto 10.
Qed.

(** X4: a joint read from a bone block animates at most as many axes as
    the block has lines that start with [limits].  A block that gives its
    limits as one [limits] line followed by rows on lines of their own
    yields a joint with at most one animated axis. *)
Theorem parse_joint_block_active_axes (content : list string) (start_idx idx : nat)
    (joint_data : block) (J : Joint) :
  parse_joint_block content start_idx = Ok (joint_data, idx) →
  build_joint joint_data = Ok J →
  active_axes J ≤
    List.length (filter (λ raw, keyed "limits" raw = true)
                        (take (idx - start_idx) (drop start_idx content))).
Proof.
  unfold parse_joint_block. intros Hb HJ.
  destruct (parse_joint_block_from_shape _ _ _ _ _ Hb)
    as (body & endl & rest & Hd & -> & He & Hbody & Hl).
  destruct (build_joint_inv _ _ HJ) as (nm & d & len & a & _ & Hinit).
  assert (active_axes J ≤ List.length (default [] (b_limits joint_data))) as Hle
    by (apply Joint_init_rows in Hinit; lia).
  rewrite Hd.
  replace (start_idx + List.length body + 1 - start_idx) with (List.length (body ++ [endl]))
    by (rewrite length_app; simpl; lia).
  change (body ++ endl :: rest) with (body ++ [endl] ++ rest).
  rewrite app_assoc, take_app_length, filter_app, length_app.
  simpl in Hl. lia.
Qed.

(** The loop over the bone blocks keeps the joints named and unattached. *)
Lemma bonedata_loop_unattached (fuel : nat) (content : list string) (idx idx' : nat)
    (joints joints' : gmap string Joint) :
  bonedata_loop fuel content idx joints = Ok (joints', idx') →
  named joints → unattached joints → is_Some (joints !! "root") →
  named joints' ∧ unattached joints' ∧ is_Some (joints' !! "root").
Proof.
  revert idx joints. induction fuel as [|f IH]; intros idx joints H Hn Hu Hr; simpl in H.
  { by simplify_eq. }
  destruct (content !! idx) as [raw|]; [|by simplify_eq].
  destruct (split raw) as [|key args]; [discriminate|].
  case_decide; [by simplify_eq|]. case_decide; [|by eapply IH].
  apply bind_Ok_inv in H as ([jd i2] & Hb & H).
  apply bind_Ok_inv in H as (J & HJ & H).
  destruct (build_joint_inv _ _ HJ) as (nm & d & len & a & _ & Hinit).
  destruct (Joint_init_fresh _ _ _ _ _ _ _ Hinit) as (Hname & Hp & Hc).
  eapply IH; [exact H| | |].
  - intros k K HK. destruct (decide (name J = k)) as [<-|Hne].
    + rewrite lookup_insert_eq in HK. by simplify_eq.
    + rewrite lookup_insert_ne in HK by done. eauto.
  - intros k K HK. destruct (decide (name J = k)) as [<-|Hne].
    + rewrite lookup_insert_eq in HK. by simplify_eq.
    + rewrite lookup_insert_ne in HK by done. eauto.
  - destruct (decide (name J = "root")) as [Heq|Hne].
    + rewrite Heq, lookup_insert_eq. eauto.
    + by rewrite lookup_insert_ne.
Qed.

Lemma attach_is_Some (sk sk' : gmap string Joint) (p c k : string) :
  attach sk p c = Ok sk' → is_Some (sk' !! k) ↔ is_Some (sk !! k).
Proof.
  intros (_ & _ & Hk)%attach_lookup. rewrite Hk. apply fmap_is_Some.
Qed.

(** The loop over the child names of a hierarchy line keeps the joints,
    their names and the match of parent references and children lists. *)
Lemma attach_all_linked (sk sk' : gmap string Joint) (p : string) (names : list string) :
  for_each (λ sk c, attach sk p c) sk names = Ok sk' →
  named sk → parent_linked sk →
  named sk' ∧ parent_linked sk' ∧ ∀ k, is_Some (sk' !! k) ↔ is_Some (sk !! k).
Proof.
  intros Hrun Hn Hl.
  refine (for_each_invariant _
    (λ _ b, named b ∧ parent_linked b ∧ ∀ k, is_Some (b !! k) ↔ is_Some (sk !! k))
    _ _ _ _ _ Hrun); [done|].
  intros _ c b b' _ (Hbn & Hbl & Hbk) Hstep. split_and!.
  - by eapply attach_named.
  - by eapply attach_parent_linked.
  - intros k. rewrite (attach_is_Some _ _ _ _ k Hstep). apply Hbk.
Qed.

Lemma hierarchy_lines_linked (lines : list string) (joints sk : gmap string Joint) :
  hierarchy_lines lines joints = Ok sk →
  named joints → parent_linked joints →
  named sk ∧ parent_linked sk ∧ ∀ k, is_Some (sk !! k) ↔ is_Some (joints !! k).
Proof.
  revert joints. induction lines as [|raw lines IH]; intros joints H Hn Hl; [discriminate|].
  simpl in H. destruct (split raw) as [|key names]; [discriminate|].
  case_decide; [by simplify_eq|].
  apply bind_Ok_inv in H as (P & _ & H).
  apply bind_Ok_inv in H as (joints' & Hatt & H).
  destruct (attach_all_linked _ _ _ _ Hatt Hn Hl) as (Hn' & Hl' & Hk').
  destruct (IH _ H Hn' Hl') as (Hn2 & Hl2 & Hk2).
  split_and!; [done..|]. intros k. by rewrite Hk2, Hk'.
Qed.

(** X5: a skeleton returned by [parse_asf] has a joint [root], stores every
    joint under its own name, and matches every parent reference by an
    entry in the children list of that parent. *)
Theorem parse_asf_linked (content : list string) (sk : gmap string Joint) :
  parse_asf content = Ok sk →
  is_Some (sk !! "root") ∧ named sk ∧ parent_linked sk.
Proof.
  unfold parse_asf. intros H.
  apply bind_Ok_inv in H as (section & _ & H).
  apply bind_Ok_inv in H as (root & Hroot & H).
  apply bind_Ok_inv in H as ([joints idx] & Hloop & H).
  destruct (Joint_init_fresh _ _ _ _ _ _ _ Hroot) as (Hname & Hp & Hc).
  destruct (bonedata_loop_unattached _ _ _ _ _ _ Hloop) as (Hn & Hu & Hr).
  - intros k J HJ. apply lookup_singleton_Some in HJ as [<- <-]. done.
  - intros k J HJ. apply lookup_singleton_Some in HJ as [<- <-]. done.
  - rewrite lookup_singleton_eq. eauto.
  - unfold parse_hierarchy in H. apply bind_Ok_inv in H as (lines & _ & H).
    destruct (hierarchy_lines_linked _ _ _ H Hn) as (Hn' & Hl' & Hk').
    { by apply unattached_linked. }
    split_and!; [by apply Hk'|done..].
Qed.

Lemma read_section_after_split (content rest : list string) (keyword : string) :
  read_section_after content keyword = Ok rest →
  ∃ pre, content = pre ++ keyword :: rest.
Proof.
  induction content as [|l content IH]; intros H; [discriminate|].
  simpl in H. case_decide.
  - simplify_eq. by exists [].
  - destruct (IH H) as [pre ->]. by exists (l :: pre).
Qed.

(** The loop over the bone blocks stops after a [:hierarchy] line or at the
    end of the lines. *)
Lemma bonedata_loop_exit (fuel : nat) (content : list string) (idx idx' : nat)
    (joints joints' : gmap string Joint) :
  bonedata_loop fuel content idx joints = Ok (joints', idx') →
  List.length content ≤ fuel + idx →
  (∃ i raw, content !! i = Some raw ∧ keyed ":hierarchy" raw = true ∧ idx' = S i)
  ∨ List.length content ≤ idx'.
Proof.
  revert idx joints. induction fuel as [|f IH]; intros idx joints H Hfuel; simpl in H.
  { simplify_eq. right. lia. }
  destruct (content !! idx) as [raw|] eqn:Hraw.
  2:{ simplify_eq. right. by apply lookup_ge_None. }
  destruct (split raw) as [|key args] eqn:Hs; [discriminate|].
  case_decide as Hh.
  { simplify_eq. left. exists idx, raw. split_and!; [done| |done].
    rewrite (keyed_split _ _ _ _ Hs). by apply bool_decide_eq_true. }
  case_decide.
  - apply bind_Ok_inv in H as ([jd i2] & Hb & H).
    apply bind_Ok_inv in H as (J & _ & H).
    unfold parse_joint_block in Hb.
    destruct (parse_joint_block_from_shape _ _ _ _ _ Hb) as (body & ? & ? & _ & -> & _).
    apply (IH _ _ H). lia.
  - apply (IH _ _ H). lia.
Qed.

(** X6: [parse_asf] returns only for a file that has a [:bonedata] line
    and, after it, a line that starts with [:hierarchy]: bone blocks alone
    are never returned as a skeleton. *)
Theorem parse_asf_needs_hierarchy (content : list string) (sk : gmap string Joint) :
  parse_asf content = Ok sk →
  ∃ pre section h,
    content = pre ++ ":bonedata" :: section ∧ h ∈ section ∧ keyed ":hierarchy" h = true.
Proof.
  unfold parse_asf. intros H.
  apply bind_Ok_inv in H as (section & [pre ->]%read_section_after_split & H).
  apply bind_Ok_inv in H as (root & _ & H).
  apply bind_Ok_inv in H as ([joints idx] & Hloop & H).
  exists pre, section.
  destruct (bonedata_loop_exit _ _ _ _ _ _ Hloop) as [(i & raw & Hi & Hk & _)|Hend]; [lia| |].
  - exists raw. split_and!; [done| |done]. by eapply list_elem_of_lookup_2.
  - unfold parse_hierarchy in H. by rewrite drop_ge in H.
Qed.

Lemma attach_known (sk : gmap string Joint) (p c : string) :
  is_Some (sk !! p) → is_Some (sk !! c) → ∃ sk', attach sk p c = Ok sk'.
Proof.
  intros [P HP] [Cj HC]. unfold attach. rewrite HP, HC. simpl.
  destruct (decide (p = c)) as [->|Hne].
  - rewrite lookup_insert_eq. simpl. eauto.
  - rewrite lookup_insert_ne, HC by done. simpl. eauto.
Qed.

Lemma attach_all_known (sk : gmap string Joint) (p : string) (names : list string) :
  is_Some (sk !! p) → (∀ c, c ∈ names → is_Some (sk !! c)) →
  ∃ sk', for_each (λ sk c, attach sk p c) sk names = Ok sk'
    ∧ ∀ k, is_Some (sk' !! k) ↔ is_Some (sk !! k).
Proof.
  intros Hp Hnames.
  apply (for_each_progress (λ sk c, attach sk p c)
           (λ _ b, ∀ k, is_Some (b !! k) ↔ is_Some (sk !! k))); [done|].
  intros _ c b Hc Hb.
  destruct (attach_known b p c) as [b' Hb']; [by apply Hb..| |].
  { apply Hb. auto. }
  exists b'. split; [done|]. intros k. rewrite (attach_is_Some _ _ _ _ k Hb'). apply Hb.
Qed.

Lemma attach_all_unknown (sk : gmap string Joint) (p c : string) (names : list string) :
  is_Some (sk !! p) → c ∈ names → sk !! c = None →
  for_each (λ sk c, attach sk p c) sk names = Err KeyError.
Proof.
  revert sk. induction names as [|x names IH]; intros sk Hp Hc Hnone.
  { by apply elem_of_nil in Hc. }
  simpl. destruct (sk !! x) as [X|] eqn:HX.
  - destruct (attach_known sk p x) as [sk' Hsk']; [done|by eexists|].
    rewrite Hsk'. apply elem_of_cons in Hc as [->|Hc]; [congruence|].
    apply IH; [|done|].
    + by apply (attach_is_Some _ _ _ _ p Hsk').
    + apply eq_None_not_Some. rewrite (attach_is_Some _ _ _ _ c Hsk').
      by apply eq_None_not_Some.
  - destruct Hp as [P HP]. unfold attach. by rewrite HP, HX.
Qed.

(** X7: the first line of the hierarchy that names a joint without bone
    block -- as parent or as child -- makes [parse_hierarchy] raise
    [KeyError]: the lines before it, which name defined joints only, are
    processed, and nothing is returned. *)
Theorem hierarchy_unknown_name (pre rest : list string) (raw key : string)
    (names : list string) (joints : gmap string Joint) :
  Forall (λ l, ∃ k ns, split l = k :: ns ∧ k ≠ "end"
                       ∧ ∀ n, n ∈ k :: ns → is_Some (joints !! n)) pre →
  split raw = key :: names → key ≠ "end" →
  (∃ n, n ∈ key :: names ∧ joints !! n = None) →
  hierarchy_lines (pre ++ raw :: rest) joints = Err KeyError.
Proof.
  intros Hpre Hs Hend (n & Hn & Hnone). revert joints Hpre Hnone.
  induction pre as [|l pre IH]; intros joints Hpre Hnone.
  - simpl. rewrite Hs, decide_False by done.
    destruct (joints !! key) as [P|] eqn:HP; [|done]. simpl.
    apply elem_of_cons in Hn as [->|Hn]; [congruence|].
    by rewrite (attach_all_unknown joints key n names).
  - apply Forall_cons in Hpre as [(k & ns & Hl & Hk & Hknown) Hpre].
    simpl. rewrite Hl, decide_False by done.
    destruct (Hknown k) as [P HP]; [by left|]. rewrite HP. simpl.
    destruct (attach_all_known joints k ns) as (joints' & -> & Hdom).
    { by rewrite HP. }
    { intros c Hc. apply Hknown. by right. }
    simpl. apply IH.
    + eapply Forall_impl; [exact Hpre|]. intros l' (k' & ns' & ? & ? & Hall).
      exists k', ns'. split_and!; [done..|]. intros m Hm. apply Hdom. auto.
    + apply eq_None_not_Some. rewrite Hdom. by apply eq_None_not_Some.
Qed.

End SkeletonParserFacts.

(** ** More on forward kinematics *)

Section PoseFacts.
Context {num : Numerics}.

Lemma reachable_trans (sk : gmap string Joint) (a b c : string) :
  reachable sk a b → reachable sk b c → reachable sk a c.
Proof.
  intros Hab Hbc. induction Hbc as [|x J y Hbx IH HJ Hy]; [done|].
  by eapply reachable_child.
Qed.

Lemma reachable_through (sk : gmap string Joint) (a c k : string) (J : Joint) :
  sk !! a = Some J → c ∈ children J → reachable sk c k → reachable sk a k.
Proof.
  intros HJ Hc Hck. eapply reachable_trans; [|exact Hck].
  eapply reachable_child; [constructor|done..].
Qed.

(** What a call of [set_motion] writes: a pose for every joint below
    [self], and nothing else. *)
Lemma set_motion_touches (sk : gmap string Joint) (motion : gmap string (list float64)) :
  ∀ fuel self ps ps',
    set_motion fuel sk motion self ps = Ok ps' →
    (∀ k, ps' !! k = ps !! k ∨ reachable sk self k)
    ∧ (∀ k, reachable sk self k → is_Some (ps' !! k))
    ∧ (∀ k, is_Some (ps !! k) → is_Some (ps' !! k)).
Proof.
  induction fuel as [|f IH]; intros self ps ps' Hrun;
    apply set_motion_Ok_inv in Hrun as (f' & J & pose & Hf & HJ & Hpose & Hloop);
    [discriminate|]. simplify_eq.
  set (ps1 := <[self := pose]> ps) in *.
  assert ((∀ k, ps' !! k = ps1 !! k ∨ ∃ c, c ∈ children J ∧ reachable sk c k)
          ∧ (∀ c k, c ∈ children J → reachable sk c k → is_Some (ps' !! k))
          ∧ (∀ k, is_Some (ps1 !! k) → is_Some (ps' !! k))) as (Hfoot & Hposed & Hmono).
  { refine (for_each_invariant _
      (λ seen b,
         (∀ k, b !! k = ps1 !! k ∨ ∃ c, c ∈ seen ∧ reachable sk c k)
         ∧ (∀ c k, c ∈ seen → reachable sk c k → is_Some (b !! k))
         ∧ (∀ k, is_Some (ps1 !! k) → is_Some (b !! k))) _ _ _ _ _ Hloop).
    - split_and!; [by left| |done]. intros c k Hc. by apply elem_of_nil in Hc.
    - intros seen x b b' _ (Hb1 & Hb2 & Hb3) Hx.
      destruct (IH _ _ _ Hx) as (Hx1 & Hx2 & Hx3). split_and!.
      + intros k. destruct (Hx1 k) as [Heq|Hr].
        * rewrite Heq. destruct (Hb1 k) as [?|(c & Hc & Hr)]; [by left|].
          right. exists c. split; [|done]. apply elem_of_app. by left.
        * right. exists x. split; [|done]. apply elem_of_app. right. by left.
      + intros c k [Hc|Hc%list_elem_of_singleton]%elem_of_app Hr.
        * apply Hx3. eauto.
        * subst. auto.
      + auto. }
  split_and!.
  - intros k. destruct (Hfoot k) as [Heq|(c & Hc & Hr)].
    + destruct (decide (self = k)) as [->|Hne]; [right; constructor|].
      left. rewrite Heq. unfold ps1. by rewrite lookup_insert_ne.
    + right. by eapply reachable_through.
  - intros k Hr. apply reachable_head in Hr as [->|(J' & c & HJ' & Hc & Hr)].
    + apply Hmono. unfold ps1. rewrite lookup_insert_eq. eauto.
    + simplify_eq. eauto.
  - intros k Hk. apply Hmono. unfold ps1.
    destruct (decide (self = k)) as [->|Hne].
    + rewrite lookup_insert_eq. eauto.
    + by rewrite lookup_insert_ne.
Qed.

(** X8: applying a frame from [root] gives a pose to every joint below
    [root] and leaves every other joint -- a bone that the hierarchy never
    attached -- with the pose it had, or without one. *)
Theorem set_motion_footprint (fuel : nat) (sk : gmap string Joint)
    (motion : gmap string (list float64)) (ps ps' : gmap string Pose) :
  set_motion fuel sk motion "root" ps = Ok ps' →
  (∀ k, reachable sk "root" k → is_Some (ps' !! k))
  ∧ (∀ k, ¬ reachable sk "root" k → ps' !! k = ps !! k).
Proof.
  intros (Hfoot & Hposed & _)%set_motion_touches. split; [done|].
  intros k Hk. by destruct (Hfoot k).
Qed.

(** X9: the poses that a sequence of frames leaves behind are those of its
    last frame applied alone: on a skeleton whose children lists are
    matched by parent references, no earlier frame has any effect on the
    result of a later one. *)
Theorem apply_frames_last (fuel : nat) (sk : gmap string Joint)
    (earlier : list (gmap string (list float64))) (motion : gmap string (list float64))
    (ps ps' : gmap string Pose) :
  named sk → children_linked sk →
  apply_frames fuel sk (earlier ++ [motion]) ps = Ok ps' →
  set_motion fuel sk motion "root" ps = Ok ps'.
Proof.
  intros Hnamed Hlinked Hrun. unfold apply_frames in Hrun.
  rewrite for_each_app in Hrun. apply bind_Ok_inv in Hrun as (ps1 & Hearlier & Hrun).
  cbn [for_each] in Hrun.
  destruct (set_motion fuel sk motion "root" ps1) as [ps2|] eqn:Hlast; [|discriminate].
  injection Hrun as <-.
  assert (∀ k, ps1 !! k = ps !! k ∨ reachable sk "root" k) as Hfoot.
  { refine (for_each_invariant _
      (λ _ b, ∀ k, b !! k = ps !! k ∨ reachable sk "root" k) _ _ _ _ _ Hearlier).
    - by left.
    - intros _ m b b' _ Hb (Hm & _ & _)%set_motion_touches k.
      destruct (Hm k) as [Heq|?]; [|by right]. rewrite Heq. apply Hb. }
  destruct (set_motion_simulation sk motion Hlinked fuel "root" ps1 ps ps2)
    as (ps3 & Hrun3 & Hkeep & Hbelow); [|done|].
  { intros J HJ. left. eauto. }
  rewrite Hrun3. f_equal. apply map_eq. intros k. symmetry.
  destruct (Hfoot k) as [Heq|Hr]; auto.
Qed.

(** X10: what [set_motion] asks of the entry of [root]: a frame without it
    raises [KeyError]; an entry of fewer than three values raises
    [ValueError] (the reshape of the translation); an entry of seven
    values raises [KeyError] (the fourth angle is taken for the [axes] of
    [euler2mat]); an entry of three or more values other than six and
    seven raises [TypeError] (the call of [euler2mat]); an entry of six
    values with an infinite angle raises [ValueError] (its sine). *)
Theorem set_motion_root_entry (fuel : nat) (sk : gmap string Joint)
    (motion : gmap string (list float64)) (ps : gmap string Pose) (J : Joint) :
  sk !! "root" = Some J → name J = "root" →
  (motion !! "root" = None →
     set_motion (S fuel) sk motion "root" ps = Err KeyError)
  ∧ (∀ vs, motion !! "root" = Some vs → List.length vs < 3 →
       set_motion (S fuel) sk motion "root" ps = Err ValueError)
  ∧ (∀ vs, motion !! "root" = Some vs → List.length vs = 7 →
       set_motion (S fuel) sk motion "root" ps = Err KeyError)
  ∧ (∀ vs, motion !! "root" = Some vs → 3 ≤ List.length vs →
       List.length vs ≠ 6 → List.length vs ≠ 7 →
       set_motion (S fuel) sk motion "root" ps = Err TypeError)
  ∧ (∀ x y z a b c, motion !! "root" = Some [x; y; z; a; b; c] →
       isinf (deg2rad a) || isinf (deg2rad b) || isinf (deg2rad c) = true →
       set_motion (S fuel) sk motion "root" ps = Err ValueError).
Proof.
  intros HJ Hname. rewrite set_motion_S, HJ. simpl.
  unfold own_pose. rewrite decide_True by done. unfold root_pose.
  split_and!.
  - by intros ->.
  - intros vs -> Hlen. simpl.
    destruct vs as [|a [|b [|c vs]]]; simpl in *; try done; lia.
  - intros vs -> Hlen. simpl.
    destruct vs as [|a [|b [|c [|d [|e [|f [|g [|h vs]]]]]]]]; simpl in *;
      try done; lia.
  - intros vs -> Hlen Hne6 Hne7. simpl.
    destruct vs as [|a [|b [|c [|d [|e [|f [|g [|h vs]]]]]]]]; simpl in *;
      try done; lia.
  - intros x y z a b c -> Hinf. simpl. unfold euler2mat_call. by rewrite Hinf.
Qed.

Lemma local_rotation_short (J : Joint) (motion : gmap string (list float64))
    (vs : list float64) :
  motion !! name J = Some vs → List.length vs < active_axes J →
  local_rotation J motion = Err IndexError.
Proof.
  unfold active_axes, local_rotation, take_channel.
  destruct (limits J) as [[lx ly] lz]. intros -> Hlen.
  destruct (is_zero_row lx), (is_zero_row ly), (is_zero_row lz);
    destruct vs as [|a [|b [|c vs]]]; simpl in *; try done; lia.
Qed.

Lemma local_rotation_take (J : Joint) (motion : gmap string (list float64))
    (vs : list float64) :
  motion !! name J = Some vs → active_axes J ≤ List.length vs →
  local_rotation J (<[name J := take (active_axes J) vs]> motion) = local_rotation J motion.
Proof.
  unfold active_axes, local_rotation, take_channel.
  destruct (limits J) as [[lx ly] lz]. intros Hvs Hlen.
  rewrite lookup_insert_eq, Hvs.
  destruct (is_zero_row lx), (is_zero_row ly), (is_zero_row lz);
    destruct vs as [|a [|b [|c vs]]]; simpl in *; try done; lia.
Qed.

(** X11: the entry of a joint other than [root] must hold one value per
    animated axis.  A shorter entry makes the call on that joint raise
    [IndexError]; the values beyond that number are never read: the frame
    cut down to them gives the same outcome. *)
Theorem set_motion_channel_count (fuel : nat) (sk : gmap string Joint)
    (motion : gmap string (list float64)) (ps : gmap string Pose)
    (j : string) (J : Joint) (vs : list float64) :
  named sk → sk !! j = Some J → j ≠ "root" → motion !! j = Some vs →
  (List.length vs < active_axes J →
     set_motion (S fuel) sk motion j ps = Err IndexError)
  ∧ (active_axes J ≤ List.length vs →
     ∀ self, set_motion fuel sk (<[j := take (active_axes J) vs]> motion) self ps
             = set_motion fuel sk motion self ps).
Proof.
  intros Hnamed HJ Hj Hvs. pose proof (Hnamed _ _ HJ) as Hname. split.
  - intros Hlen. rewrite set_motion_S, HJ. simpl. unfold own_pose.
    rewrite decide_False by congruence. unfold joint_pose.
    rewrite (local_rotation_short J motion vs) by (by rewrite ?Hname). done.
  - intros Hlen self. apply set_motion_frame_ext. intros k Jk ps0 HJk.
    pose proof (Hnamed _ _ HJk) as Hk. unfold own_pose. case_decide as Hr.
    + unfold root_pose. rewrite lookup_insert_ne by congruence. done.
    + unfold joint_pose. destruct (decide (k = j)) as [->|Hne].
      * assert (Jk = J) as -> by congruence. rewrite <- Hname at 1.
        rewrite (local_rotation_take J motion vs) by (by rewrite ?Hname). done.
      * rewrite (local_rotation_frame_ext Jk _ motion); [done|].
        rewrite lookup_insert_ne by congruence. done.
Qed.

(** A loop that returns has run its body, with success, on every element. *)
Lemma for_each_Ok_each {A B : Type} (body : B → A → result B) (l : list A) (acc acc' : B) :
  for_each body acc l = Ok acc' → ∀ x, x ∈ l → ∃ b b', body b x = Ok b'.
Proof.
  intros Hrun.
  refine (for_each_invariant _ (λ seen _, ∀ x, x ∈ seen → ∃ b b', body b x = Ok b')
            _ _ _ _ _ Hrun).
  - intros x Hx. by apply elem_of_nil in Hx.
  - intros seen x b b' _ Hseen Hx y [Hy|Hy%list_elem_of_singleton]%elem_of_app; [auto|].
    subst. eauto.
Qed.

(** A call that returns went down a hierarchy without cycle, no deeper
    than the recursion depth. *)
Lemma set_motion_height (sk : gmap string Joint) (motion : gmap string (list float64)) :
  ∀ fuel self ps ps',
    set_motion fuel sk motion self ps = Ok ps' → height_le sk fuel self = true.
Proof.
  induction fuel as [|f IH]; intros self ps ps' Hrun;
    apply set_motion_Ok_inv in Hrun as (f' & J & pose & Hf & HJ & Hpose & Hloop);
    [discriminate|]. simplify_eq.
  simpl. rewrite HJ. apply forallb_forall. intros c Hc%list_elem_of_In.
  destruct (for_each_Ok_each _ _ _ _ Hloop c Hc) as (b & b' & Hb). eauto.
Qed.

Lemma height_le_below (sk : gmap string Joint) (n : nat) (a b : string) :
  height_le sk n a = true → reachable sk a b →
  ∃ n', n' ≤ n ∧ height_le sk n' b = true.
Proof.
  intros Ha Hab. induction Hab as [|b J c Hab IH HJ Hc]; [eauto|].
  destruct IH as (n' & Hle & Hb). destruct n' as [|n'']; [discriminate|].
  simpl in Hb. rewrite HJ in Hb. rewrite forallb_forall in Hb.
  exists n''. split; [lia|]. apply Hb. by apply list_elem_of_In.
Qed.

Lemma height_le_no_cycle (sk : gmap string Joint) (n : nat) (j : string) :
  height_le sk n j = true → on_cycle sk j → False.
Proof.
  revert j. induction (lt_wf n) as [n _ IH]. intros j Hj (J & c & HJ & Hc & Hcj).
  destruct n as [|n']; [discriminate|].
  simpl in Hj. rewrite HJ in Hj. rewrite forallb_forall in Hj.
  assert (height_le sk n' c = true) as Hch by (by apply Hj, list_elem_of_In).
  destruct (height_le_below _ _ _ _ Hch Hcj) as (n2 & Hle & Hj2).
  apply (IH n2 ltac:(lia) j Hj2). by exists J, c.
Qed.

(** X12: on a skeleton whose joints are stored under their names and
    listed by their parents only, and for a frame that has six values for
    [root], a value for each animated axis of the other joints and no
    infinite angle among them, applying the frame returns exactly when the
    hierarchy below [root] has no cycle and is no deeper than the
    recursion depth. *)
Theorem set_motion_returns_iff (fuel : nat) (sk : gmap string Joint)
    (motion : gmap string (list float64)) (ps : gmap string Pose) :
  named sk → children_linked sk → frame_fits sk motion →
  (∃ ps', set_motion fuel sk motion "root" ps = Ok ps')
  ↔ height_le sk fuel "root" = true.
Proof.
  intros Hnamed Hlinked Hfits. split.
  - intros [ps' Hrun]. by eapply set_motion_height.
  - intros Hh.
    destruct (set_motion_progress sk motion Hlinked Hfits fuel "root" ps Hh)
      as (ps' & Hrun & _); [|eauto].
    intros J HJ. left. eauto.
Qed.

(** X13: when a joint below [root] lies on a cycle of children lists --
    the hierarchy may list a joint under itself or under one of its
    descendants -- no frame can be applied: [set_motion] raises whatever
    the recursion depth. *)
Theorem set_motion_cycle (fuel : nat) (sk : gmap string Joint)
    (motion : gmap string (list float64)) (ps : gmap string Pose) (j : string) :
  reachable sk "root" j → on_cycle sk j →
  ∃ e, set_motion fuel sk motion "root" ps = Err e.
Proof.
  intros Hreach Hcycle.
  destruct (set_motion fuel sk motion "root" ps) as [ps'|e] eqn:Hrun; [|eauto].
  exfalso. apply set_motion_height in Hrun.
  destruct (height_le_below _ _ _ _ Hrun Hreach) as (n & _ & Hj).
  by apply (height_le_no_cycle sk n j).
Qed.

End PoseFacts.

(** ** Scenes, single frames, time series *)

Section ViewFacts.
Context {num : Numerics}.

Lemma mapM_cons {A B : Type} (f : A → result B) (x : A) (l : list A) :
  mapM f (x :: l) = (y ← f x; k ← mapM f l; Ok (y :: k)).
Proof. reflexivity. Qed.

Lemma mapM_ext_in {A B : Type} (f g : A → result B) (l : list A) :
  (∀ x, x ∈ l → f x = g x) → mapM f l = mapM g l.
Proof.
  induction l as [|x l IH]; intros H; [done|].
  rewrite !mapM_cons, (H x) by left. destruct (g x); [|done]. simpl.
  rewrite IH; [done|]. intros y Hy. apply H. by right.
Qed.

Lemma dict_update_elem (ret d : list string) (k : string) :
  k ∈ dict_update ret d ↔ k ∈ ret ∨ k ∈ d.
Proof.
  unfold dict_update. rewrite elem_of_app, list_elem_of_filter.
  destruct (decide (k ∈ ret)); tauto.
Qed.

Lemma dict_update_NoDup (ret d : list string) :
  NoDup ret → NoDup d → NoDup (dict_update ret d).
Proof.
  intros Hr Hd. unfold dict_update. apply NoDup_app. split_and!; [done| |].
  - intros k Hk [Hnot _]%list_elem_of_filter. done.
  - by apply NoDup_filter.
Qed.

(** The keys of [to_dict]: the joint itself first, then what lies below
    its children, each name once. *)
Lemma to_dict_spec (sk : gmap string Joint) :
  named sk →
  ∀ fuel self keys,
    to_dict fuel sk self = Ok keys →
    NoDup keys ∧ (∃ tl, keys = self :: tl) ∧ ∀ k, k ∈ keys ↔ reachable sk self k.
Proof.
  intros Hnamed. induction fuel as [|f IH]; intros self keys H; [discriminate|].
  simpl in H. apply bind_Ok_inv in H as (J & HJ%lookup_or_Ok_inv & Hloop).
  rewrite (Hnamed _ _ HJ) in Hloop.
  assert (NoDup keys ∧ (∃ tl, keys = self :: tl)
          ∧ ∀ k, k ∈ keys ↔ k = self ∨ ∃ c, c ∈ children J ∧ reachable sk c k)
    as (Hnd & Hhd & Hel).
  { refine (for_each_invariant _
      (λ seen ret, NoDup ret ∧ (∃ tl, ret = self :: tl)
                   ∧ ∀ k, k ∈ ret ↔ k = self ∨ ∃ c, c ∈ seen ∧ reachable sk c k)
      _ _ _ _ _ Hloop).
    - split_and!; [apply NoDup_singleton|by exists []|].
      intros k. rewrite list_elem_of_singleton. split; [by left|].
      intros [?|(c & Hc & _)]; [done|]. by apply elem_of_nil in Hc.
    - intros seen x ret ret' _ (Hnd & [tl ->] & Hel) Hstep.
      apply bind_Ok_inv in Hstep as (d & Hd & Hstep). injection Hstep as <-.
      destruct (IH _ _ Hd) as (Hdnd & _ & Hdel). split_and!.
      + by apply dict_update_NoDup.
      + unfold dict_update. simpl. eauto.
      + intros k. rewrite dict_update_elem, Hel, Hdel. split.
        * intros [[?|(c & Hc & Hr)]|Hr]; [by left| |].
          -- right. exists c. split; [|done]. apply elem_of_app. by left.
          -- right. exists x. split; [|done]. apply elem_of_app. right. by left.
        * intros [?|(c & [Hc|Hc%list_elem_of_singleton]%elem_of_app & Hr)];
            [by left; left| |].
          -- left. right. eauto.
          -- subst. by right. }
  split_and!; [done..|]. intros k. rewrite Hel. split.
  - intros [->|(c & Hc & Hr)]; [constructor|]. by eapply reachable_through.
  - intros Hr. apply reachable_head in Hr as [->|(J' & c & HJ' & Hc & Hr)]; [by left|].
    simplify_eq. eauto.
Qed.

(** X14: the dict of [to_dict] holds the joint it is called on first and
    then exactly the joints below it, each under its name once, also when
    the hierarchy lists a joint under two parents. *)
Theorem to_dict_keys (fuel : nat) (sk : gmap string Joint) (self : string)
    (keys : list string) :
  named sk → to_dict fuel sk self = Ok keys →
  NoDup keys ∧ head keys = Some self ∧ ∀ k, k ∈ keys ↔ reachable sk self k.
Proof.
  intros Hnamed H. destruct (to_dict_spec sk Hnamed _ _ _ H) as (Hnd & [tl ->] & Hel).
  by split_and!.
Qed.

Lemma to_dict_progress (sk : gmap string Joint) :
  ∀ fuel self, height_le sk fuel self = true → ∃ keys, to_dict fuel sk self = Ok keys.
Proof.
  induction fuel as [|f IH]; intros self Hh; [discriminate|].
  simpl in *. destruct (sk !! self) as [J|]; [|discriminate]. simpl.
  rewrite forallb_forall in Hh.
  destruct (for_each_progress
    (λ ret child, d ← to_dict f sk child; Ok (dict_update ret d))
    (λ _ _, True) (children J) [name J]) as (keys & Hkeys & _); [done| |eauto].
  intros _ c ret Hc _. destruct (IH c) as [d Hd].
  { apply Hh. by apply list_elem_of_In. }
  rewrite Hd. simpl. eauto.
Qed.

Lemma scatter_row_posed (ps : gmap string Pose) (k : string) (P : Pose) :
  ps !! k = Some P →
  scatter_row ps k = Ok (k, ((coordinate P).2, (coordinate P).1.1, (coordinate P).1.2)).
Proof.
  intros HP. unfold scatter_row. rewrite HP. simpl.
  by destruct (coordinate P) as [[x y] z].
Qed.

Lemma mapM_scatter_rows (ps : gmap string Pose) (keys : list string) :
  (∀ k, k ∈ keys → is_Some (ps !! k)) →
  ∃ sc, mapM (scatter_row ps) keys = Ok sc ∧ sc.*1 = keys
    ∧ ∀ k v, (k, v) ∈ sc →
        ∃ P, ps !! k = Some P ∧ let '(x, y, z) := coordinate P in v = (z, x, y).
Proof.
  induction keys as [|k keys IH]; intros Hposed.
  - exists []. split_and!; [done..|]. intros k v Hin. by apply elem_of_nil in Hin.
  - destruct IH as (sc & Hsc & Hfst & Hrows); [intros; apply Hposed; by right|].
    destruct (Hposed k) as [P HP]; [by left|].
    rewrite mapM_cons, (scatter_row_posed _ _ _ HP). simpl. rewrite Hsc. simpl.
    eexists. split_and!; [done|by rewrite fmap_cons, Hfst|].
    intros k' v [Heq|Hin]%elem_of_cons; [|eauto].
    simplify_eq. exists P. split; [done|]. by destruct (coordinate P) as [[x y] z].
Qed.


(** The inner loop of [extract_time_series_data]: the position of the
    marker, as the joint has it now, is added to the series of each
    selected marker that is in the dict, and nothing else changes. *)
Lemma record_markers (jd selected : list string) (ps : gmap string Pose)
    (ts ts' : gmap string (list vec)) :
  NoDup selected →
  for_each (λ (ts : gmap string (list vec)) m,
      if decide (m ∈ jd) then
        P ← lookup_or TypeError (ps !! m);
        Ok (alter (λ series, series ++ [coordinate P]) m ts)
      else Ok ts) ts selected = Ok ts' →
  ∀ m, (m ∈ selected ∧ m ∈ jd →
          ∃ P, ps !! m = Some P
               ∧ ts' !! m = (λ series, series ++ [coordinate P]) <$> ts !! m)
       ∧ (¬ (m ∈ selected ∧ m ∈ jd) → ts' !! m = ts !! m).
Proof.
  intros Hnd Hrun.
  refine (for_each_invariant_at _
    (λ seen t, ∀ m,
       (m ∈ seen ∧ m ∈ jd →
          ∃ P, ps !! m = Some P
               ∧ t !! m = (λ series, series ++ [coordinate P]) <$> ts !! m)
       ∧ (¬ (m ∈ seen ∧ m ∈ jd) → t !! m = ts !! m)) _ _ _ _ _ Hrun).
  - intros m. split; [|done]. intros [Hm _]. by apply elem_of_nil in Hm.
  - intros seen x rest t t' Hsel Ht Hstep m.
    assert (x ∉ seen) as Hx.
    { rewrite Hsel in Hnd. apply NoDup_app in Hnd as (_ & Hdisj & _).
      intros Hin. apply (Hdisj x Hin). by left. }
    destruct (Ht m) as [Hin Hout]. destruct (Ht x) as [_ Hxout].
    case_decide as Hjd.
    + apply bind_Ok_inv in Hstep as (P & HP%lookup_or_Ok_inv & Hstep).
      injection Hstep as <-.
      destruct (decide (x = m)) as [->|Hne].
      * rewrite lookup_alter_eq, Hxout by tauto. split; [eauto|].
        intros Hnot. exfalso. apply Hnot. split; [|done].
        apply elem_of_app. right. by left.
      * rewrite lookup_alter_ne by done. split.
        -- intros [[Hm|Hm%list_elem_of_singleton]%elem_of_app Hmj]; [auto|congruence].
        -- intros Hnot. apply Hout. intros [Hm Hmj]. apply Hnot.
           split; [|done]. apply elem_of_app. by left.
    + injection Hstep as <-. split.
      * intros [[Hm|Hm%list_elem_of_singleton]%elem_of_app Hmj]; [auto|congruence].
      * intros Hnot. apply Hout. intros [Hm Hmj]. apply Hnot.
        split; [|done]. apply elem_of_app. by left.
Qed.

Lemma empty_series_lookup (selected : list string) (m : string) :
  (m ∈ selected →
     (list_to_map ((λ m, (m, [])) <$> selected) : gmap string (list vec)) !! m = Some [])
  ∧ (m ∉ selected →
     (list_to_map ((λ m, (m, [])) <$> selected) : gmap string (list vec)) !! m = None).
Proof.
  induction selected as [|x selected IH]; simpl.
  - split; [by intros ?%elem_of_nil|by rewrite lookup_empty].
  - destruct (decide (x = m)) as [->|Hne].
    + rewrite lookup_insert_eq. split; [done|]. intros Hnot. exfalso. apply Hnot. by left.
    + rewrite lookup_insert_ne by done. rewrite !elem_of_cons. destruct IH as [IH1 IH2].
      split; [intros [?|?]; [congruence|auto] | intros Hnot; apply IH2; tauto].
Qed.

(** X18: for markers selected once each, [extract_time_series_data]
    returns, for every selected marker that is a joint below [root], the
    world position the joint has after each frame of [frames], in the
    order of the frames: entry [n] is its coordinate in the poses that
    the frames up to the n-th, applied in order, leave behind.  Every
    other selected marker has an empty series, a name that was not
    selected has no series, and the joints are left in the poses of the
    last frame. *)
Theorem extract_time_series_data_series (fuel : nat) (sk : gmap string Joint)
    (motions : list (gmap string (list float64))) (frames : list nat)
    (selected : list string) (ps ps' : gmap string Pose) (ts : gmap string (list vec)) :
  named sk → NoDup selected →
  extract_time_series_data fuel sk motions frames selected ps = Ok (ps', ts) →
  ∃ sequence trail,
    Forall2 (λ f motion, motions !! f = Some motion) frames sequence
    ∧ List.length trail = List.length frames
    ∧ (∀ n psn, trail !! n = Some psn →
         apply_frames fuel sk (take (S n) sequence) ps = Ok psn)
    ∧ apply_frames fuel sk sequence ps = Ok ps'
    ∧ ∀ m,
        (m ∈ selected →
           ∃ series, ts !! m = Some series
             ∧ (reachable sk "root" m →
                  Forall2 (λ psn v, ∃ P, psn !! m = Some P ∧ v = coordinate P)
                          trail series)
             ∧ (¬ reachable sk "root" m → series = []))
        ∧ (m ∉ selected → ts !! m = None).
Proof.
  intros Hnamed Hnd Hrun. unfold extract_time_series_data in Hrun.
  refine (for_each_invariant _
    (λ seen (acc : gmap string Pose * gmap string (list vec)),
       ∃ sequence trail,
         Forall2 (λ f motion, motions !! f = Some motion) seen sequence
         ∧ List.length trail = List.length seen
         ∧ (∀ n psn, trail !! n = Some psn →
              apply_frames fuel sk (take (S n) sequence) ps = Ok psn)
         ∧ apply_frames fuel sk sequence ps = Ok acc.1
         ∧ ∀ m,
             (m ∈ selected →
                ∃ series, acc.2 !! m = Some series
                  ∧ (reachable sk "root" m →
                       Forall2 (λ psn v, ∃ P, psn !! m = Some P ∧ v = coordinate P)
                               trail series)
                  ∧ (¬ reachable sk "root" m → series = []))
             ∧ (m ∉ selected → acc.2 !! m = None))
    frames _ (ps', ts) _ _ Hrun).
  - exists [], []. split_and!; [constructor|done| |done|].
    { intros n psn Hn. by rewrite lookup_nil in Hn. }
    simpl. intros m.
    destruct (empty_series_lookup selected m) as [Hin Hout].
    split; [|done]. intros Hm. exists []. rewrite Hin by done.
    split_and!; [done| |done]. intros _. constructor.
  - intros seen f [psi tsi] [psn tsn] _
      (sequence & trail & Hseq & Hlen & Htrail & Happ & Hts) Hstep. simpl in *.
    apply bind_Ok_inv in Hstep as (Jr & _ & Hstep).
    apply bind_Ok_inv in Hstep as (motion & Hm%lookup_or_Ok_inv & Hstep).
    apply bind_Ok_inv in Hstep as (ps1 & Hset & Hstep).
    apply bind_Ok_inv in Hstep as (jd & Hjd & Hstep).
    apply bind_Ok_inv in Hstep as (ts1 & Hrec & Hstep). simplify_eq.
    destruct (to_dict_spec sk Hnamed _ _ _ Hjd) as (_ & _ & Hel).
    pose proof (record_markers _ _ _ _ _ Hnd Hrec) as Hmarks.
    pose proof (Forall2_length _ _ _ Hseq) as Hseqlen.
    assert (apply_frames fuel sk (sequence ++ [motion]) ps = Ok psn) as Happ'.
    { unfold apply_frames in *. rewrite for_each_app, Happ. simpl. by rewrite Hset. }
    exists (sequence ++ [motion]), (trail ++ [psn]). split_and!.
    + apply Forall2_app; [done|]. by constructor.
    + rewrite !length_app. simpl. lia.
    + intros n q Hq. destruct (decide (n < List.length trail)) as [Hlt|Hge].
      * rewrite lookup_app_l in Hq by done.
        rewrite take_app_le by lia. by apply Htrail.
      * rewrite lookup_app_r in Hq by lia.
        destruct (n - List.length trail) as [|d] eqn:Hd; [|by destruct d].
        simpl in Hq. injection Hq as <-.
        rewrite take_ge by (rewrite length_app; simpl; lia). done.
    + done.
    + intros m. destruct (Hts m) as [Hin Hout]. destruct (Hmarks m) as [Hadd Hsame].
      split.
      * intros Hsel. destruct (Hin Hsel) as (series & Hs & Hpos & Hnil).
        destruct (decide (m ∈ jd)) as [Hmj|Hmj].
        -- destruct Hadd as (P & HP & Hv); [done|]. rewrite Hs in Hv. simpl in Hv.
           exists (series ++ [coordinate P]). split_and!; [done| |].
           ++ intros Hr. apply Forall2_app; [by apply Hpos|].
              constructor; [eauto|constructor].
           ++ intros Hr. exfalso. apply Hr. by apply Hel.
        -- rewrite Hsame by tauto. exists series. split_and!; [done| |done].
           intros Hr. exfalso. apply Hmj. by apply Hel.
      * intros Hsel. rewrite Hsame by tauto. auto.
Qed.

Lemma clamp_end_le (motions : list (gmap string (list float64))) (end_frame : option nat) :
  clamp_end motions end_frame ≤ List.length motions.
Proof. unfold clamp_end. destruct end_frame; [case_decide|]; lia. Qed.

(** X19: [create_3d_animation] asked for the frames from [start_frame] to
    [end_frame] shows what the dashboard's [create_animation] shows for the
    frames from 0 to the length of that range: the same scenes, and the
    same poses left on the joints. *)
Theorem create_3d_animation_as_dashboard (fuel : nat) (sk : gmap string Joint)
    (motions : list (gmap string (list float64))) (start_frame : nat)
    (end_frame : option nat) (ps : gmap string Pose) :
  create_3d_animation fuel sk motions start_frame end_frame ps
  = create_animation fuel sk motions
      (dashboard_frames motions 0 (Some (clamp_end motions end_frame - start_frame))) ps.
Proof.
  rewrite create_3d_animation_shows, create_animation_shows.
  unfold dashboard_frames. f_equal. unfold clamp_end at 2.
  pose proof (clamp_end_le motions end_frame).
  by rewrite decide_False by lia.
Qed.

Lemma show_frames_length (fuel : nat) (sk : gmap string Joint)
    (motions : list (gmap string (list float64))) (indices : list nat)
    (ps ps' : gmap string Pose) (scenes : list scene) :
  show_frames fuel sk motions indices ps = Ok (ps', scenes) →
  List.length scenes = List.length indices.
Proof.
  unfold show_frames. intros Hrun.
  refine (for_each_invariant _
    (λ seen (acc : gmap string Pose * list scene), List.length acc.2 = List.length seen)
    indices _ (ps', scenes) _ _ Hrun); [done|].
  intros seen x [b1 b2] [c1 c2] _ Hlen Hstep. simpl in *.
  apply bind_Ok_inv in Hstep as ([q sc] & _ & Hstep). simplify_eq.
  rewrite !length_app. simpl. lia.
Qed.

(** X20: when [create_3d_animation] returns, it shows as many scenes as
    the range from [start_frame] to [end_frame] has indices, [end_frame]
    cut down to the number of frames; when that range is empty it returns
    no scene and leaves the joints as they are, without looking at the
    skeleton or the motions. *)
Theorem create_3d_animation_length (fuel : nat) (sk : gmap string Joint)
    (motions : list (gmap string (list float64))) (start_frame : nat)
    (end_frame : option nat) (ps : gmap string Pose) :
  (∀ ps' scenes,
     create_3d_animation fuel sk motions start_frame end_frame ps = Ok (ps', scenes) →
     List.length scenes = clamp_end motions end_frame - start_frame
     ∧ List.length scenes ≤ List.length motions - start_frame)
  ∧ (clamp_end motions end_frame ≤ start_frame →
     create_3d_animation fuel sk motions start_frame end_frame ps = Ok (ps, [])).
Proof.
  rewrite create_3d_animation_shows. split.
  - intros ps' scenes Hrun%show_frames_length.
    unfold range in Hrun. rewrite length_seq in Hrun.
    pose proof (clamp_end_le motions end_frame). lia.
  - intros Hle. unfold range.
    by replace (clamp_end motions end_frame - start_frame - 0) with 0 by lia.
Qed.

Lemma segment_parented (sk : gmap string Joint) (ps : gmap string Pose) (k p : string)
    (J : Joint) (s : option (vec * vec)) :
  sk !! k = Some J → parent J = Some p → segment sk ps k = Ok s → is_Some s.
Proof.
  intros HJ Hp. unfold segment. rewrite HJ. simpl. rewrite Hp. intros H.
  apply bind_Ok_inv in H as (Pj & _ & H).
  apply bind_Ok_inv in H as (Pp & _ & H).
  destruct (coordinate Pj) as [[x y] z], (coordinate Pp) as [[px py] pz].
  injection H as <-. eauto.
Qed.


(** On a hierarchy where each joint is listed by its parent only and
    [root] has no parent, the parent of a joint below [root] is below
    [root]. *)
Lemma parent_below (sk : gmap string Joint) (k p : string) (J : Joint) :
  children_linked sk → (sk !! "root") ≫= parent = None →
  reachable sk "root" k → sk !! k = Some J → parent J = Some p →
  reachable sk "root" p.
Proof.
  intros Hlinked Hroot Hr. destruct Hr as [|b Jb c Hb HJb Hc]; intros HJ Hp.
  - rewrite HJ in Hroot. simpl in Hroot. congruence.
  - destruct (Hlinked _ _ _ HJb Hc) as (Cj & HCj & HpC). by simplify_eq.
Qed.

Lemma reachable_known (sk : gmap string Joint) (k : string) :
  children_linked sk → is_Some (sk !! "root") →
  reachable sk "root" k → is_Some (sk !! k).
Proof.
  intros Hlinked Hroot Hr. destruct Hr as [|b Jb c Hb HJb Hc]; [done|].
  destruct (Hlinked _ _ _ HJb Hc) as (Cj & HCj & _). eauto.
Qed.

Lemma segment_below (sk : gmap string Joint) (ps : gmap string Pose) (k : string) (J : Joint) :
  children_linked sk → (sk !! "root") ≫= parent = None →
  (∀ j, reachable sk "root" j → is_Some (ps !! j)) →
  reachable sk "root" k → sk !! k = Some J →
  ∃ s, segment sk ps k = Ok s.
Proof.
  intros Hlinked Hroot Hposed Hr HJ. unfold segment. rewrite HJ. simpl.
  destruct (parent J) as [p|] eqn:Hp; [|eauto].
  pose proof (parent_below _ _ _ _ Hlinked Hroot Hr HJ Hp) as Hrp.
  destruct (Hposed k Hr) as [Pj ->]. destruct (Hposed p Hrp) as [Pp ->]. simpl.
  destruct (coordinate Pj) as [[x y] z], (coordinate Pp) as [[px py] pz]. eauto.
Qed.

Lemma segment_agree (sk : gmap string Joint) (ps1 ps2 : gmap string Pose) (k : string) :
  children_linked sk → (sk !! "root") ≫= parent = None →
  (∀ j, reachable sk "root" j → ps1 !! j = ps2 !! j) →
  reachable sk "root" k → segment sk ps1 k = segment sk ps2 k.
Proof.
  intros Hlinked Hroot Hsame Hr. unfold segment.
  destruct (sk !! k) as [J|] eqn:HJ; [|done]. simpl.
  destruct (parent J) as [p|] eqn:Hp; [|done].
  pose proof (parent_below _ _ _ _ Hlinked Hroot Hr HJ Hp) as Hrp.
  by rewrite (Hsame k Hr), (Hsame p Hrp).
Qed.

(** The loop over the line objects sets the first [n_lines] of the
    segments that a loop without that bound draws. *)
Lemma update_lines_take (n_lines : nat) (sk : gmap string Joint) (ps1 ps2 : gmap string Pose)
    (keys : list string) :
  (∀ k, k ∈ keys → segment sk ps1 k = segment sk ps2 k) →
  ∀ acc segs,
    for_each (λ drawn k, s ← segment sk ps1 k; Ok (drawn ++ option_list s)) acc keys = Ok segs →
    for_each (λ set k,
        J ← lookup_or DanglingReference (sk !! k);
        match parent J with
        | None => Ok set
        | Some _ =>
            if decide (List.length set < n_lines) then
              s ← segment sk ps2 k;
              Ok (set ++ option_list s)
            else Ok set
        end) (take n_lines acc) keys = Ok (take n_lines segs).
Proof.
  induction keys as [|k keys IH]; intros Hsame acc segs Hrun.
  - simpl in *. by injection Hrun as <-.
  - cbn [for_each] in *. apply bind_Ok_inv in Hrun as (acc' & Hstep & Hrun).
    apply bind_Ok_inv in Hstep as (s & Hs & Hstep). injection Hstep as <-.
    apply IH in Hrun; [|intros; apply Hsame; by right].
    pose proof Hs as Hs2. rewrite (Hsame k) in Hs2 by left.
    assert (∃ J, sk !! k = Some J) as [J HJ].
    { unfold segment in Hs. destruct (sk !! k); [eauto|discriminate]. }
    rewrite HJ. simpl. destruct (parent J) as [p|] eqn:Hp.
    + destruct (segment_parented _ _ _ _ _ _ HJ Hp Hs) as [seg ->].
      simpl in Hrun. rewrite length_take. case_decide as Hfree.
      * rewrite Hs2. simpl. rewrite take_ge in Hrun by (rewrite length_app; simpl; lia).
        by rewrite take_ge by lia.
      * simpl. by rewrite take_app_le in Hrun by lia.
    + assert (s = None) as ->.
      { unfold segment in Hs. rewrite HJ in Hs. simpl in Hs. rewrite Hp in Hs.
        by injection Hs as <-. }
      simpl in *. by rewrite app_nil_r in Hrun.
Qed.

(** X15: on a hierarchy where each joint is listed by its parent only and
    [root] has no parent, once [set_motion] has returned for a frame the
    rest of [update_3d_scene] can fail in one place only, the limits of
    the axes.  The scatter rows are read, one per key of [to_dict], in
    that order, each the world position of the joint in the order z, x,
    y, and the loop over the line objects returns; the call returns those
    rows when every value of them is finite and raises [ValueError] when
    one is not. *)
Theorem update_3d_scene_returns (fuel : nat) (sk : gmap string Joint)
    (motions : list (gmap string (list float64))) (frame_idx : nat)
    (motion : gmap string (list float64)) (ps ps' : gmap string Pose) :
  named sk → children_linked sk → (sk !! "root") ≫= parent = None →
  motions !! frame_idx = Some motion →
  set_motion fuel sk motion "root" ps = Ok ps' →
  ∃ keys sc segments,
    to_dict fuel sk "root" = Ok keys
    ∧ mapM (scatter_row ps') keys = Ok sc
    ∧ update_lines line_count sk ps' keys = Ok segments
    ∧ sc.*1 = keys
    ∧ (∀ k v, (k, v) ∈ sc →
         ∃ P, ps' !! k = Some P ∧ let '(x, y, z) := coordinate P in v = (z, x, y))
    ∧ update_3d_scene fuel sk motions frame_idx ps
      = if forallb finite_row sc then Ok (ps', sc) else Err ValueError.
Proof.
  intros Hnamed Hlinked Hroot Hm Hrun.
  destruct (to_dict_progress sk fuel "root") as [keys Hkeys];
    [by eapply set_motion_height|].
  destruct (to_dict_spec sk Hnamed _ _ _ Hkeys) as (_ & _ & Hel).
  destruct (set_motion_touches sk motion _ _ _ _ Hrun) as (_ & Hposed & _).
  destruct (mapM_scatter_rows ps' keys) as (sc & Hsc & Hfst & Hrows).
  { intros k Hk. apply Hposed. by apply Hel. }
  pose proof Hrun as Hinv. apply set_motion_Ok_inv in Hinv as (? & J & ? & _ & HJ & _).
  destruct (for_each_progress
    (λ set k,
        J ← lookup_or DanglingReference (sk !! k);
        match parent J with
        | None => Ok set
        | Some _ =>
            if decide (List.length set < line_count) then
              s ← segment sk ps' k;
              Ok (set ++ option_list s)
            else Ok set
        end) (λ _ _, True) keys []) as (segments & Hsegs & _); [done| |].
  { intros _ k set Hk%Hel _.
    destruct (reachable_known sk k Hlinked) as [Jk HJk]; [eauto|done|].
    rewrite HJk. simpl. destruct (parent Jk); [|eauto]. case_decide; [|eauto].
    destruct (segment_below sk ps' k Jk) as [seg ->]; [done..|]. simpl. eauto. }
  exists keys, sc, segments. split_and!; [done..|].
  unfold update_3d_scene, update_lines, set_limits. rewrite Hm.
  rewrite HJ. simpl. rewrite Hrun. simpl. rewrite Hkeys. simpl. rewrite Hsc. simpl.
  rewrite Hsegs. simpl. by destruct (forallb finite_row sc).
Qed.

End ViewFacts.

(** ** A single frame, viewed on a copy of the joints *)

Section SingleFrameFacts.
Context {num : Numerics} {cp : Copier}.


(** X16: on a hierarchy where each joint is listed by its parent only and
    [root] has no parent, a single frame that [visualize_skeleton] shows
    is shown by [update_3d_scene] for the same frame index in an
    animation, whatever poses the joints of either had before: the loop
    over the line objects sets the first twenty of the segments, and the
    call returns the same points when every value of them is finite and
    raises [ValueError], from the limits of the axes, when one is not. *)
Theorem visualize_skeleton_agrees (fuel : nat) (sk : gmap string Joint)
    (data : list (gmap string (list float64))) (motion_frame : nat)
    (ps0 ps : gmap string Pose) (points : scene) (segments : list (vec * vec)) :
  named sk → children_linked sk → (sk !! "root") ≫= parent = None →
  motion_frame < List.length data →
  visualize_skeleton fuel sk ps0 (Some data) motion_frame = Ok (points, segments) →
  ∃ motion ps' keys,
    data !! motion_frame = Some motion
    ∧ set_motion fuel sk motion "root" ps = Ok ps'
    ∧ to_dict fuel sk "root" = Ok keys
    ∧ mapM (scatter_row ps') keys = Ok points
    ∧ update_lines line_count sk ps' keys = Ok (take line_count segments)
    ∧ update_3d_scene fuel sk data motion_frame ps
      = if forallb finite_row points then Ok (ps', points) else Err ValueError.
Proof.
  intros Hnamed Hlinked Hroot Hlt H. unfold visualize_skeleton in H.
  apply bind_Ok_inv in H as (copy & Hcopy & H).
  rewrite decide_True in H by done.
  apply bind_Ok_inv in H as (cur & Hcur & H).
  apply bind_Ok_inv in Hcur as (Jr & HJr%lookup_or_Ok_inv & Hcur).
  apply bind_Ok_inv in Hcur as (motion & Hm%lookup_or_Ok_inv & Hcur).
  apply bind_Ok_inv in H as (_ & _ & H).
  apply bind_Ok_inv in H as (keys & Hkeys & H).
  apply bind_Ok_inv in H as (pts & Hpts & H).
  apply bind_Ok_inv in H as (segs & Hsegs & H). simplify_eq.
  destruct (set_motion_simulation sk motion Hlinked fuel "root" copy ps cur)
    as (ps' & Hrun & _ & Hbelow); [|done|].
  { intros J HJ. left. eauto. }
  destruct (to_dict_spec sk Hnamed _ _ _ Hkeys) as (_ & _ & Hel).
  assert (mapM (scatter_row ps') keys = Ok points) as Hpts'.
  { rewrite <- (mapM_ext_in (scatter_row cur) (scatter_row ps') keys); [done|].
    intros k Hk. unfold scatter_row. rewrite (Hbelow k) by (by apply Hel). done. }
  assert (update_lines line_count sk ps' keys = Ok (take line_count segments)) as Hlines.
  { unfold update_lines.
    apply (update_lines_take line_count sk cur ps' keys) with (acc := []); [|done].
    intros k Hk%Hel. by apply segment_agree. }
  exists motion, ps', keys. split_and!; [done..|].
  unfold update_3d_scene, set_limits.
  rewrite HJr, Hm. simpl. rewrite Hrun. simpl. rewrite Hkeys. simpl.
  rewrite Hpts'. simpl. rewrite Hlines. simpl. by destruct (forallb finite_row points).
Qed.

End SingleFrameFacts.


(** ** More on the motion parser *)

Section AmcFacts.
Context {num : Numerics}.

Lemma read_section_after_absent (content : list string) (keyword : string) :
  keyword ∉ content → read_section_after content keyword = Err ValueError.
Proof.
  induction content as [|l content IH]; intros Hnot; [done|].
  simpl. rewrite decide_False.
  - apply IH. intros Hin. apply Hnot. by right.
  - intros ->. apply Hnot. by left.
Qed.

(** X22: a text without a line that is exactly [:DEGREES] raises
    [ValueError], and what stands before the first such line is not read:
    the text parses as it does from that line on. *)
Theorem parse_amc_header (pre rest : list string) :
  ":DEGREES" ∉ pre →
  parse_amc pre = Err ValueError
  ∧ parse_amc (pre ++ ":DEGREES" :: rest) = parse_amc (":DEGREES" :: rest).
Proof.
  intros Hnot. unfold parse_amc. split.
  - by rewrite read_section_after_absent.
  - by rewrite read_section_after_app, read_section_after_absent.
Qed.

Lemma read_section_after_raises (content : list string) (keyword : string) (e : error) :
  read_section_after content keyword = Err e → e = ValueError.
Proof.
  induction content as [|l content IH]; simpl; [congruence|]. by case_decide.
Qed.

Lemma floats_raises (tokens : list string) (e : error) :
  floats tokens = Err e → e = ValueError.
Proof.
  unfold floats. induction tokens as [|t tokens IH]; [discriminate|].
  rewrite mapM_cons. destruct (float_of_string t); simpl; [|congruence].
  destruct (mapM _ tokens); simpl; [discriminate|]. intros [= <-]. by apply IH.
Qed.

Lemma amc_line_raises (st : list (gmap string (list float64)) * gmap string (list float64))
    (raw : string) (e : error) :
  amc_line st raw = Err e → e = ValueError.
Proof.
  destruct st as [frames cur]. unfold amc_line.
  destruct (split raw) as [|key values]; [discriminate|].
  destruct (isnumeric key); [by case_decide|].
  destruct (floats values) eqn:Hf; simpl; [discriminate|].
  intros [= <-]. by eapply floats_raises.
Qed.

(** X23: [parse_amc] raises nothing but [ValueError] -- for a missing
    [:DEGREES] line or a value that is no float.  No line is too short for
    it: a blank line, a delimiter alone, a joint name without values are
    all read without error. *)
Theorem parse_amc_raises_only (content : list string) (e : error) :
  parse_amc content = Err e → e = ValueError.
Proof.
  unfold parse_amc. intros H.
  destruct (read_section_after content ":DEGREES") as [lines|e'] eqn:Hr; simpl in H.
  - destruct (for_each amc_line ([], ∅) lines) as [[frames cur]|e'] eqn:Hl;
      simpl in H; [discriminate|]. injection H as <-.
    apply (for_each_raises_only amc_line (λ e, e = ValueError) lines ([], ∅) e'); [|done].
    intros b x e0 _. apply amc_line_raises.
  - injection H as <-. by eapply read_section_after_raises.
Qed.

Lemma channel_lines (chans : list string) (entries : list (string * list float64))
    (frames : list (gmap string (list float64))) (cur : gmap string (list float64)) :
  Forall2 (λ raw (e : string * list float64),
             ∃ toks, split raw = e.1 :: toks ∧ isnumeric e.1 = false
                     ∧ floats toks = Ok e.2) chans entries →
  for_each amc_line (frames, cur) chans
  = Ok (frames, foldl (λ fr (e : string * list float64), <[e.1 := e.2]> fr) cur entries).
Proof.
  intros H. revert cur. induction H as [|raw e chans entries (toks & Hs & Hk & Hf) _ IH];
    intros cur; [done|].
  cbn [for_each foldl]. rewrite (amc_line_channel _ _ _ _ _ Hs Hk), Hf. simpl. apply IH.
Qed.

Lemma foldl_insert_nonempty (entries : list (string * list float64))
    (cur : gmap string (list float64)) :
  cur ≠ ∅ ∨ entries ≠ [] →
  foldl (λ fr (e : string * list float64), <[e.1 := e.2]> fr) cur entries ≠ ∅.
Proof.
  revert cur. induction entries as [|e entries IH]; intros cur Hne; simpl.
  - by destruct Hne.
  - apply IH. left. apply insert_non_empty.
Qed.

(** X24: a delimiter line and the channel lines of one more frame, put
    after a text that parses, add exactly one frame to the sequence: the
    mapping of the joint names of those lines to their values, the last
    line of a joint that is named twice taking over. *)
Theorem parse_amc_append_frame (content chans : list string)
    (frames : list (gmap string (list float64))) (d k : string) (r : list string)
    (entries : list (string * list float64)) :
  parse_amc content = Ok frames →
  split d = k :: r → isnumeric k = true →
  Forall2 (λ raw (e : string * list float64),
             ∃ toks, split raw = e.1 :: toks ∧ isnumeric e.1 = false
                     ∧ floats toks = Ok e.2) chans entries →
  entries ≠ [] →
  parse_amc (content ++ d :: chans)
  = Ok (frames ++ [foldl (λ fr (e : string * list float64), <[e.1 := e.2]> fr) ∅ entries]).
Proof.
  intros Hp Hs Hk Hch Hne. unfold parse_amc in *.
  apply bind_Ok_inv in Hp as (lines & Hlines & Hp).
  apply bind_Ok_inv in Hp as ([fs cur] & Hrun & Hp). injection Hp as <-.
  rewrite read_section_after_app, Hlines. unfold mbind, result_bind.
  change (d :: chans) with ([d] ++ chans). rewrite for_each_app, Hrun.
  unfold mbind, result_bind. rewrite for_each_app. cbn [for_each].
  rewrite (amc_line_delimiter _ _ _ _ _ Hs Hk). unfold mbind, result_bind.
  assert (∀ cur0 : gmap string (list float64), size (foldl (λ fr (e : string * list float64), <[e.1 := e.2]> fr)
                              cur0 entries) ≠ 0) as Hsz.
  { intros cur0. rewrite map_size_empty_iff. apply foldl_insert_nonempty. by right. }
  destruct (decide (size cur = 0)) as [Hcur|Hcur].
  - rewrite (channel_lines _ _ _ _ Hch).
    apply map_size_empty_iff in Hcur as ->. by rewrite decide_False.
  - rewrite (channel_lines _ _ _ _ Hch). by rewrite decide_False.
Qed.

(** X25: a blank line is skipped wherever it stands, also between the
    channel lines of a frame: the text parses as it does without it. *)
Theorem parse_amc_blank_line (pre post : list string) (blank : string) :
  split blank = [] →
  parse_amc (pre ++ blank :: post) = parse_amc (pre ++ post).
Proof.
  intros Hb. unfold parse_amc. rewrite !read_section_after_app.
  destruct (read_section_after pre ":DEGREES") as [rest|_].
  - unfold mbind, result_bind. rewrite !for_each_app.
    destruct (for_each amc_line ([], ∅) rest) as [[fs cur]|]; [|done].
    unfold mbind, result_bind. cbn [for_each].
    unfold amc_line at 1. by rewrite Hb.
  - cbn [read_section_after]. rewrite decide_False; [done|].
    intros ->. vm_compute in Hb. discriminate.
Qed.

End AmcFacts.

(** ** The further properties on concrete skeletons and files *)

Section OnFurtherExamples.
Import RightAngle Examples AsfExamples FurtherExamples.
#[local] Existing Instance numerics.

Lemma frame_fitsb_sound {num : Numerics} (sk : gmap string Joint)
    (motion : gmap string (list float64)) :
  frame_fitsb sk motion = true → frame_fits sk motion.
Proof.
  assert (∀ l, forallb (λ v, negb (isinf (deg2rad v))) l = true →
               Forall (λ v, isinf (deg2rad v) = false) l) as Hfin.
  { intros l Hl. apply Forall_forall. intros v Hv%list_elem_of_In.
    rewrite forallb_forall in Hl. specialize (Hl v Hv). by apply negb_true_iff in Hl. }
  unfold frame_fitsb. intros [Hroot Hall]%andb_prop. split.
  - destruct (motion !! "root") as [[|x [|y [|z [|a [|b [|c [|]]]]]]]|]; try done.
    exists x, y, z, a, b, c. split; [done|]. by apply Hfin.
  - intros k J HJ Hname. rewrite forallb_forall in Hall.
    apply elem_of_map_to_list, list_elem_of_In in HJ. specialize (Hall _ HJ).
    simpl in Hall. apply orb_prop in Hall as [[Hr|Hn]%orb_prop|Hm].
    + by apply bool_decide_eq_true in Hr.
    + by left.
    + right. destruct (motion !! name J) as [vs|]; [|done].
      apply andb_prop in Hm as [Hlen Hvals].
      exists vs. split_and!; [done|by apply Nat.leb_le|by apply Hfin].
Qed.

Lemma leg_linked : linked leg.
Proof. apply linkedb_sound. vm_compute. reflexivity. Qed.

Lemma looped_reach_a : reachable looped "root" "a".
Proof.
  eapply reachable_direct; [reflexivity|].
  apply list_elem_of_In. vm_compute. left. reflexivity.
Qed.

(** X1 on a block whose second limits row stands on a line of its own. *)
Lemma parse_joint_block_ignores_line_witness :
  parse_joint_block (["  begin"] ++ ["name arm"; "limits (-90 90)"] ++ "(-45 45)" :: ["end"]) 1 =
    match parse_joint_block (["  begin"] ++ ["name arm"; "limits (-90 90)"] ++ ["end"]) 1 with
    | Ok (b, i) => Ok (b, S i)
    | Err e => Err e
    end.
Proof.
  apply (parse_joint_block_ignores_line (num := numerics)
           ["  begin"] ["name arm"; "limits (-90 90)"] ["end"] "(-45 45)" "(-45" ["45)"]).
  - repeat constructor.
  - reflexivity.
  - discriminate.
  - apply (bool_decide_unpack _). vm_compute. exact I.
Defined.

(** X2 on [arm_block]. *)
Lemma parse_joint_block_shape_witness :
  ∃ joint_data idx,
    parse_joint_block arm_block 1 = Ok (joint_data, idx)
    ∧ ∃ before body endl rest,
        arm_block = before ++ body ++ endl :: rest
        ∧ List.length before = 1
        ∧ idx = 1 + List.length body + 1
        ∧ keyed "end" endl = true
        ∧ Forall (λ raw, keyed "end" raw = false) body
        ∧ List.length (default [] (b_limits joint_data)) =
            List.length (filter (λ raw, keyed "limits" raw = true) body).
Proof.
  eexists _, _. split.
  - reflexivity.
  - apply (parse_joint_block_shape (num := numerics)). reflexivity.
Defined.

(** X3 on the joint that the block of [lfemur] gives: three tags, one
    limits row. *)
Lemma Joint_init_active_axes_witness :
  ∃ J, Joint_init "lfemur" [0; 1; 0]%Z 10%Z [0; 0; 0]%Z ["rx"; "ry"; "rz"] [[-160; 20]%Z] = Ok J
       ∧ active_axes J ≤ 3 ∧ active_axes J ≤ 1.
Proof.
  eexists. split.
  - reflexivity.
  - apply (Joint_init_active_axes (num := numerics) "lfemur" [0; 1; 0]%Z 10%Z [0; 0; 0]%Z
             ["rx"; "ry"; "rz"] [[-160; 20]%Z]). reflexivity.
Defined.

(** X4 on [arm_block]: two tags, limits over two lines, one [limits] line. *)
Lemma parse_joint_block_active_axes_witness :
  ∃ joint_data idx J,
    parse_joint_block arm_block 1 = Ok (joint_data, idx)
    ∧ build_joint joint_data = Ok J
    ∧ active_axes J ≤
        List.length (filter (λ raw, keyed "limits" raw = true)
                            (take (idx - 1) (drop 1 arm_block))).
Proof.
  eexists _, _, _. split; [reflexivity|]. split; [reflexivity|].
  eapply (parse_joint_block_active_axes (num := numerics)); reflexivity.
Defined.

(** X5 on [leg_file]. *)
Lemma parse_asf_linked_witness :
  is_Some (leg !! "root") ∧ named leg ∧ parent_linked leg.
Proof. apply (parse_asf_linked (num := numerics) leg_file). reflexivity. Defined.

(** X6 on [leg_file]. *)
Lemma parse_asf_needs_hierarchy_witness :
  ∃ pre section h,
    leg_file = pre ++ ":bonedata" :: section ∧ h ∈ section ∧ keyed ":hierarchy" h = true.
Proof. apply (parse_asf_needs_hierarchy (num := numerics) leg_file leg). reflexivity. Defined.

(** X7 on the joints of [two_joints] and a hierarchy that lists [ghost]. *)
Lemma hierarchy_unknown_name_witness :
  hierarchy_lines (["root j1"] ++ "j1 ghost" :: ["end"]) two_joints = Err KeyError.
Proof.
  apply (hierarchy_unknown_name (num := numerics) ["root j1"] ["end"] "j1 ghost" "j1" ["ghost"]).
  - constructor; [|constructor]. exists "root", ["j1"].
    split; [reflexivity|]. split; [discriminate|].
    intros n Hn. apply list_elem_of_In in Hn.
    destruct Hn as [<-|[<-|[]]]; eexists; reflexivity.
  - reflexivity.
  - discriminate.
  - exists "ghost". split; [|reflexivity].
    apply list_elem_of_In. right. left. reflexivity.
Defined.

(** X8 on [two_joints]. *)
Lemma set_motion_footprint_witness :
  (∀ k, reachable two_joints "root" k → is_Some (two_joints_posed !! k))
  ∧ (∀ k, ¬ reachable two_joints "root" k → two_joints_posed !! k = (∅ : gmap string Pose) !! k).
Proof.
  apply (set_motion_footprint (num := numerics) 2 two_joints quarter_turn). reflexivity.
Defined.

(** X9 on [two_joints]: a quarter turn after another frame. *)
Lemma apply_frames_last_witness :
  set_motion 2 two_joints quarter_turn "root" ∅ = Ok two_joints_posed.
Proof.
  destruct two_joints_linked as (Hn & Hc & _).
  apply (apply_frames_last (num := numerics) 2 two_joints (take 1 three_frames));
    [exact Hn | exact Hc | reflexivity].
Defined.

(** X10 on [two_joints]: no entry, two values, three values, seven
    values. *)
Lemma set_motion_root_entry_witness :
  set_motion 2 two_joints ∅ "root" ∅ = Err KeyError
  ∧ set_motion 2 two_joints {["root" := [1; 2]%Z]} "root" ∅ = Err ValueError
  ∧ set_motion 2 two_joints {["root" := [1; 2; 3]%Z]} "root" ∅ = Err TypeError
  ∧ set_motion 2 two_joints {["root" := [1; 2; 3; 0; 0; 0; 0]%Z]} "root" ∅ = Err KeyError.
Proof.
  split_and!.
  - eapply (proj1 (set_motion_root_entry (num := numerics) 1 two_joints ∅ ∅ _
                     eq_refl eq_refl)).
    reflexivity.
  - eapply (proj1 (proj2 (set_motion_root_entry (num := numerics) 1 two_joints
                            {["root" := [1; 2]%Z]} ∅ _ eq_refl eq_refl)));
      [reflexivity | simpl; lia].
  - eapply (proj1 (proj2 (proj2 (proj2 (set_motion_root_entry (num := numerics) 1 two_joints
                            {["root" := [1; 2; 3]%Z]} ∅ _ eq_refl eq_refl)))));
      [reflexivity | simpl; lia | discriminate | discriminate].
  - eapply (proj1 (proj2 (proj2 (set_motion_root_entry (num := numerics) 1 two_joints
                            {["root" := [1; 2; 3; 0; 0; 0; 0]%Z]} ∅ _ eq_refl eq_refl))));
      reflexivity.
Defined.

(** X11 on [j1], which animates one axis: no value, and two values. *)
Lemma set_motion_channel_count_witness :
  set_motion 1 two_joints {["root" := [0; 0; 0; 0; 0; 0]%Z; "j1" := []]} "j1" ∅ = Err IndexError
  ∧ ∀ self,
      set_motion 2 two_joints
        (<["j1" := take 1 [90; 7]%Z]> {["root" := [0; 0; 0; 0; 0; 0]%Z; "j1" := [90; 7]%Z]}) self ∅
      = set_motion 2 two_joints {["root" := [0; 0; 0; 0; 0; 0]%Z; "j1" := [90; 7]%Z]} self ∅.
Proof.
  destruct two_joints_linked as (Hn & _ & _). split.
  - apply (proj1 (set_motion_channel_count (num := numerics) 0 two_joints
                    {["root" := [0; 0; 0; 0; 0; 0]%Z; "j1" := []]} ∅ "j1" _ []
                    Hn eq_refl ltac:(discriminate) eq_refl)).
    vm_compute. lia.
  - apply (proj2 (set_motion_channel_count (num := numerics) 2 two_joints
                    {["root" := [0; 0; 0; 0; 0; 0]%Z; "j1" := [90; 7]%Z]} ∅ "j1" _ [90; 7]%Z
                    Hn eq_refl ltac:(discriminate) eq_refl)).
    vm_compute. lia.
Defined.

(** X12 on [two_joints], which has one level below [root]. *)
Lemma set_motion_returns_iff_witness :
  (∃ ps', set_motion 2 two_joints quarter_turn "root" ∅ = Ok ps')
  ↔ height_le two_joints 2 "root" = true.
Proof.
  destruct two_joints_linked as (Hn & Hc & _).
  apply (set_motion_returns_iff (num := numerics));
    [exact Hn | exact Hc | apply frame_fitsb_sound; vm_compute; reflexivity].
Defined.

(** X13 on [looped]. *)
Lemma set_motion_cycle_witness :
  ∃ e, set_motion 1000 looped {["root" := [0; 0; 0; 0; 0; 0]%Z]} "root" ∅ = Err e.
Proof.
  apply (set_motion_cycle (num := numerics) 1000 looped _ ∅ "a").
  - exact looped_reach_a.
  - eexists _, "a". split; [reflexivity|]. split; [|constructor].
    apply list_elem_of_In. vm_compute. left. reflexivity.
Defined.

(** X14 on [leg]. *)
Lemma to_dict_keys_witness :
  NoDup ["root"; "lfemur"; "ltibia"]
  ∧ head ["root"; "lfemur"; "ltibia"] = Some "root"
  ∧ ∀ k, k ∈ ["root"; "lfemur"; "ltibia"] ↔ reachable leg "root" k.
Proof.
  destruct leg_linked as (Hn & _ & _).
  apply (to_dict_keys (num := numerics) 5 leg "root"); [exact Hn | reflexivity].
Defined.

(** X15 on [two_joints] and the second of [three_frames]. *)
Lemma update_3d_scene_returns_witness :
  ∃ keys sc segments,
    to_dict 2 two_joints "root" = Ok keys
    ∧ mapM (scatter_row two_joints_posed) keys = Ok sc
    ∧ update_lines line_count two_joints two_joints_posed keys = Ok segments
    ∧ sc.*1 = keys
    ∧ (∀ k v, (k, v) ∈ sc →
         ∃ P, two_joints_posed !! k = Some P
              ∧ let '(x, y, z) := coordinate P in v = (z, x, y))
    ∧ update_3d_scene 2 two_joints three_frames 1 two_joints_stale
      = if forallb finite_row sc then Ok (two_joints_posed, sc) else Err ValueError.
Proof.
  destruct two_joints_linked as (Hn & Hc & _).
  apply (update_3d_scene_returns (num := numerics) 2 two_joints three_frames 1 quarter_turn);
    [exact Hn | exact Hc | reflexivity | reflexivity | reflexivity].
Defined.

(** X16 on [two_joints]: a fresh skeleton viewed at frame 1, and a posed
    one animated at frame 1. *)
Lemma visualize_skeleton_agrees_witness :
  ∃ points segments,
    visualize_skeleton (cp := copier) 16 two_joints ∅ (Some three_frames) 1
    = Ok (points, segments)
    ∧ ∃ motion ps' keys,
        three_frames !! 1 = Some motion
        ∧ set_motion 16 two_joints motion "root" two_joints_stale = Ok ps'
        ∧ to_dict 16 two_joints "root" = Ok keys
        ∧ mapM (scatter_row ps') keys = Ok points
        ∧ update_lines line_count two_joints ps' keys = Ok (take line_count segments)
        ∧ update_3d_scene 16 two_joints three_frames 1 two_joints_stale
          = if forallb finite_row points then Ok (ps', points) else Err ValueError.
Proof.
  destruct two_joints_linked as (Hn & Hc & _).
  eexists _, _. split; [reflexivity|].
  eapply (visualize_skeleton_agrees (num := numerics) (cp := copier) 16 two_joints
            three_frames 1 ∅);
    [exact Hn | exact Hc | reflexivity | simpl; lia | reflexivity].
Defined.


(** X18 on [two_joints]: frames 0 and 2, markers [j1] and [ghost]. *)
Lemma extract_time_series_data_series_witness :
  ∃ ps' ts,
    extract_time_series_data 2 two_joints three_frames [0; 2] ["j1"; "ghost"] ∅ = Ok (ps', ts)
    ∧ ∃ sequence trail,
        Forall2 (λ f motion, three_frames !! f = Some motion) [0; 2] sequence
        ∧ List.length trail = List.length [0; 2]
        ∧ (∀ n psn, trail !! n = Some psn →
             apply_frames 2 two_joints (take (S n) sequence) ∅ = Ok psn)
        ∧ apply_frames 2 two_joints sequence ∅ = Ok ps'
        ∧ ∀ m,
            (m ∈ ["j1"; "ghost"] →
               ∃ series, ts !! m = Some series
                 ∧ (reachable two_joints "root" m →
                      Forall2 (λ psn v, ∃ P, psn !! m = Some P ∧ v = coordinate P)
                              trail series)
                 ∧ (¬ reachable two_joints "root" m → series = []))
            ∧ (m ∉ ["j1"; "ghost"] → ts !! m = None).
Proof.
  destruct two_joints_linked as (Hn & _ & _).
  eexists _, _. split; [reflexivity|].
  apply (extract_time_series_data_series (num := numerics) 2 two_joints three_frames
           [0; 2] ["j1"; "ghost"] ∅); [exact Hn | | reflexivity].
  apply (bool_decide_unpack _). vm_compute. exact I.
Defined.

(** X20 on [three_frames]: a range that starts at its end. *)
Lemma create_3d_animation_length_witness :
  create_3d_animation 2 two_joints three_frames 2 (Some 1) two_joints_stale
  = Ok (two_joints_stale, []).
Proof.
  apply (create_3d_animation_length (num := numerics) 2 two_joints three_frames 2 (Some 1)).
  vm_compute. lia.
Defined.


(** X22 on [headed_file]. *)
Lemma parse_amc_header_witness :
  parse_amc ["#!OML:ASF"; ":FULLY-SPECIFIED"] = Err ValueError
  ∧ parse_amc (["#!OML:ASF"; ":FULLY-SPECIFIED"]
               ++ ":DEGREES" :: ["1"; "root 0 0 0 0 0 0"; "j1 90"])
    = parse_amc (":DEGREES" :: ["1"; "root 0 0 0 0 0 0"; "j1 90"]).
Proof.
  apply (parse_amc_header (num := numerics)).
  apply (bool_decide_unpack _). vm_compute. exact I.
Defined.

(** X23 on a file with a value that is no number. *)
Lemma parse_amc_raises_only_witness :
  ∃ e, parse_amc [":DEGREES"; "1"; "root 0 0 zero"] = Err e ∧ e = ValueError.
Proof.
  eexists. split; [reflexivity|].
  apply (parse_amc_raises_only (num := numerics) [":DEGREES"; "1"; "root 0 0 zero"]).
  reflexivity.
Defined.

(** X24 on [headed_file], followed by a frame that names [j1] twice. *)
Lemma parse_amc_append_frame_witness :
  parse_amc (headed_file ++ "2" :: ["root 1 2 3 0 0 0"; "j1 180"; "j1 90"])
  = Ok ([quarter_turn]
        ++ [foldl (λ fr (e : string * list Z), <[e.1 := e.2]> fr) ∅
              [("root", [1; 2; 3; 0; 0; 0]%Z); ("j1", [180]%Z); ("j1", [90]%Z)]]).
Proof.
  apply (parse_amc_append_frame (num := numerics) headed_file _ [quarter_turn] "2" "2" []).
  - reflexivity.
  - reflexivity.
  - reflexivity.
  - repeat (apply List.Forall2_cons;
              [eexists; split; [vm_compute; reflexivity | split; vm_compute; reflexivity]|]).
    apply List.Forall2_nil.
  - discriminate.
Defined.

(** X25 on a frame with a line of blanks between its channel lines. *)
Lemma parse_amc_blank_line_witness :
  parse_amc ([":DEGREES"; "1"; "root 0 0 0 0 0 0"] ++ "   " :: ["j1 90"])
  = parse_amc ([":DEGREES"; "1"; "root 0 0 0 0 0 0"] ++ ["j1 90"]).
Proof. apply (parse_amc_blank_line (num := numerics)). reflexivity. Defined.

End OnFurtherExamples.
